(** * Geolocation: a shallow embedding of [lib/geolocation.js]

    The module wraps Firefox's geolocation service (an XPCOM component) in a
    permission-gated event target.  The embedding follows the source method
    by method: the hidden per-instance namespace becomes the [priv_*] fields
    of a record, the collaborators the module talks to (the geolocation
    service, the preference service, the event channel, the promise library)
    become further fields of the same record, and every method is a
    computation in a state-and-exception monad [JS]. *)

From Stdlib Require Import ZArith.
From stdpp Require Import base option list gmap strings.

Open Scope string_scope.
Open Scope list_scope.

(** ** JavaScript values *)

(** Object references.  [ALLOWED_ERROR_ref] is the object bound to the
    module-level constant [ALLOWED_ERROR]; [TypeError_ref] stands for the
    error object the engine throws when a property of [null] or [undefined]
    is read; [Heap n] is an object created by a collaborator (a position, a
    coordinates record, an address, a position error). *)
Inductive ref :=
| ALLOWED_ERROR_ref
| TypeError_ref
| Heap (n : nat).

Inductive jsval :=
| VUndefined
| VNull
| VBool (b : bool)
| VNum (n : Z)
| VNaN
| VStr (s : string)
| VObj (r : ref).

#[global] Instance ref_eq_dec : EqDecision ref.
Proof. solve_decision. Defined.

#[global] Instance jsval_eq_dec : EqDecision jsval.
Proof. solve_decision. Defined.

(** [a === b].  [NaN] is the one value that is not strictly equal to
    itself; objects compare by reference. *)
Definition strict_eq (a b : jsval) : bool :=
  match a, b with
  | VNaN, _ | _, VNaN => false
  | _, _ => bool_decide (a = b)
  end.

(** ToBoolean, as used by [if (...)], [!x] and [c ? a : b]. *)
Definition truthy (v : jsval) : bool :=
  match v with
  | VUndefined | VNull | VNaN => false
  | VBool b => b
  | VNum n => negb (n =? 0)%Z
  | VStr s => negb (String.eqb s "")
  | VObj _ => true
  end.

(** [position != cached] where [position] is an object and [cached] is
    [null] or an object: loose inequality of an object with [null] is true,
    and two objects are loosely equal only when they are the same object. *)
Definition loose_neq_obj (position : ref) (cached : option ref) : bool :=
  match cached with
  | None => true
  | Some r => negb (bool_decide (position = r))
  end.

(** A nullable object reference read back as a value. *)
Definition of_nullable (o : option ref) : jsval :=
  match o with
  | None => VNull
  | Some r => VObj r
  end.

(** [Array.prototype.join] on an array of strings. *)
Fixpoint join (sep : string) (parts : list string) : string :=
  match parts with
  | [] => ""
  | [s] => s
  | s :: rest => s +:+ sep +:+ join sep rest
  end.

(** ** Module-level constants *)

(** [const ALLOWED_ERROR = { code : 1, message : ... }]: a plain object
    literal with exactly these two own properties. *)
Definition ALLOWED_ERROR : gmap string jsval :=
  <["code" := VNum 1]>
  (<["message" :=
       VStr "You must get permission to use geolocation and set allowed to true"]> ∅).

Inductive prefval :=
| PBool (b : bool)
| PInt (n : Z)
| PStr (s : string).

(** [const GEO_API_V1_VALUES], in key order. *)
Definition GEO_API_V1_VALUES : list (string * prefval) :=
  [ ("geo.wifi.protocol", PInt 0);
    ("geo.wifi.uri", PStr "https://www.google.com/loc/json") ].

(** ** Instance state and collaborators *)

(** [privateAPI.options], the record handed to the geolocation service. *)
Record Options := {
  opt_enableHighAccuracy : jsval;
  opt_timeout : jsval;
}.

(** A promise made by [defer()]. *)
Inductive promise :=
| Pending
| Resolved (v : jsval)
| Rejected (reason : jsval).

(** One [emit(this, type, ...args)]. *)
Record emitted := {
  ev_type : string;
  ev_args : list jsval;
}.

(** A call made on the geolocation service.  The callbacks passed to the
    service are the [success]/[fail] closures over the deferred created by
    the calling method; they are identified by that deferred's index. *)
Inductive provider_call :=
| Call_getCurrentPosition (deferred : nat) (options : Options)
| Call_watchPosition (deferred : nat) (options : Options)
| Call_clearWatch (watchID : nat).

(** The instance together with its collaborators.  [priv_watchID] is
    [null] or the unsigned short the service returned, [priv_position] is
    [null] or the position object the service delivered last, and
    [priv_allowed] is the boolean the preference holds; [registered] lists
    the watches the service currently holds and [provider_log] the calls it
    has received, oldest first. *)
Record state := {
  (* namespace(this) *)
  priv_options : Options;
  priv_watchID : option nat;
  priv_position : option ref;
  priv_address : jsval;
  priv_allowed : bool;
  (* class constants fixed by the host *)
  GEO_API_V1 : bool;
  self_id : string;
  (* collaborators *)
  heap : gmap nat (gmap string jsval);
  prefs : gmap string prefval;
  provider_log : list provider_call;
  registered : list nat;
  events : list emitted;
  deferreds : list promise;
}.

#[global] Instance options_eq_dec : EqDecision Options.
Proof. solve_decision. Defined.
#[global] Instance promise_eq_dec : EqDecision promise.
Proof. solve_decision. Defined.
#[global] Instance emitted_eq_dec : EqDecision emitted.
Proof. solve_decision. Defined.
#[global] Instance provider_call_eq_dec : EqDecision provider_call.
Proof. solve_decision. Defined.

Definition set_priv_options (o : Options) (st : state) : state :=
  {| priv_options := o; priv_watchID := priv_watchID st;
     priv_position := priv_position st; priv_address := priv_address st;
     priv_allowed := priv_allowed st; GEO_API_V1 := GEO_API_V1 st;
     self_id := self_id st; heap := heap st; prefs := prefs st;
     provider_log := provider_log st; registered := registered st;
     events := events st; deferreds := deferreds st |}.

Definition set_priv_watchID (w : option nat) (st : state) : state :=
  {| priv_options := priv_options st; priv_watchID := w;
     priv_position := priv_position st; priv_address := priv_address st;
     priv_allowed := priv_allowed st; GEO_API_V1 := GEO_API_V1 st;
     self_id := self_id st; heap := heap st; prefs := prefs st;
     provider_log := provider_log st; registered := registered st;
     events := events st; deferreds := deferreds st |}.

Definition set_priv_position (p : option ref) (st : state) : state :=
  {| priv_options := priv_options st; priv_watchID := priv_watchID st;
     priv_position := p; priv_address := priv_address st;
     priv_allowed := priv_allowed st; GEO_API_V1 := GEO_API_V1 st;
     self_id := self_id st; heap := heap st; prefs := prefs st;
     provider_log := provider_log st; registered := registered st;
     events := events st; deferreds := deferreds st |}.

Definition set_priv_address (a : jsval) (st : state) : state :=
  {| priv_options := priv_options st; priv_watchID := priv_watchID st;
     priv_position := priv_position st; priv_address := a;
     priv_allowed := priv_allowed st; GEO_API_V1 := GEO_API_V1 st;
     self_id := self_id st; heap := heap st; prefs := prefs st;
     provider_log := provider_log st; registered := registered st;
     events := events st; deferreds := deferreds st |}.

Definition set_priv_allowed (b : bool) (st : state) : state :=
  {| priv_options := priv_options st; priv_watchID := priv_watchID st;
     priv_position := priv_position st; priv_address := priv_address st;
     priv_allowed := b; GEO_API_V1 := GEO_API_V1 st;
     self_id := self_id st; heap := heap st; prefs := prefs st;
     provider_log := provider_log st; registered := registered st;
     events := events st; deferreds := deferreds st |}.

Definition set_prefs (p : gmap string prefval) (st : state) : state :=
  {| priv_options := priv_options st; priv_watchID := priv_watchID st;
     priv_position := priv_position st; priv_address := priv_address st;
     priv_allowed := priv_allowed st; GEO_API_V1 := GEO_API_V1 st;
     self_id := self_id st; heap := heap st; prefs := p;
     provider_log := provider_log st; registered := registered st;
     events := events st; deferreds := deferreds st |}.

Definition set_provider_log (l : list provider_call) (st : state) : state :=
  {| priv_options := priv_options st; priv_watchID := priv_watchID st;
     priv_position := priv_position st; priv_address := priv_address st;
     priv_allowed := priv_allowed st; GEO_API_V1 := GEO_API_V1 st;
     self_id := self_id st; heap := heap st; prefs := prefs st;
     provider_log := l; registered := registered st;
     events := events st; deferreds := deferreds st |}.

Definition set_registered (l : list nat) (st : state) : state :=
  {| priv_options := priv_options st; priv_watchID := priv_watchID st;
     priv_position := priv_position st; priv_address := priv_address st;
     priv_allowed := priv_allowed st; GEO_API_V1 := GEO_API_V1 st;
     self_id := self_id st; heap := heap st; prefs := prefs st;
     provider_log := provider_log st; registered := l;
     events := events st; deferreds := deferreds st |}.

Definition set_events (l : list emitted) (st : state) : state :=
  {| priv_options := priv_options st; priv_watchID := priv_watchID st;
     priv_position := priv_position st; priv_address := priv_address st;
     priv_allowed := priv_allowed st; GEO_API_V1 := GEO_API_V1 st;
     self_id := self_id st; heap := heap st; prefs := prefs st;
     provider_log := provider_log st; registered := registered st;
     events := l; deferreds := deferreds st |}.

Definition set_deferreds (l : list promise) (st : state) : state :=
  {| priv_options := priv_options st; priv_watchID := priv_watchID st;
     priv_position := priv_position st; priv_address := priv_address st;
     priv_allowed := priv_allowed st; GEO_API_V1 := GEO_API_V1 st;
     self_id := self_id st; heap := heap st; prefs := prefs st;
     provider_log := provider_log st; registered := registered st;
     events := events st; deferreds := l |}.

Arguments set_priv_options _ _ /.
Arguments set_priv_watchID _ _ /.
Arguments set_priv_position _ _ /.
Arguments set_priv_address _ _ /.
Arguments set_priv_allowed _ _ /.
Arguments set_prefs _ _ /.
Arguments set_provider_log _ _ /.
Arguments set_registered _ _ /.
Arguments set_events _ _ /.
Arguments set_deferreds _ _ /.

(** The own properties of the object behind a reference.  A reference the
    heap does not hold reads as an object without own properties. *)
Definition object_at (st : state) (r : ref) : gmap string jsval :=
  match r with
  | ALLOWED_ERROR_ref => ALLOWED_ERROR
  | TypeError_ref => ∅
  | Heap n => default ∅ (heap st !! n)
  end.

(** ** The monad of method bodies *)

(** A method body either completes normally or throws a value; the state
    changes it made before throwing stay. *)
Inductive completion (A : Type) :=
| Normal (a : A)
| Throw (exception : jsval).
Arguments Normal {A} a.
Arguments Throw {A} exception.

Definition JS (A : Type) : Type := state -> completion A * state.

Definition ret {A} (a : A) : JS A := fun st => (Normal a, st).

Definition bind {A B} (m : JS A) (k : A -> JS B) : JS B := fun st =>
  match m st with
  | (Normal a, st') => k a st'
  | (Throw x, st') => (Throw x, st')
  end.

Definition throw {A} (x : jsval) : JS A := fun st => (Throw x, st).

(** [try { m } catch (exception) { handler exception }] *)
Definition try_catch {A} (m : JS A) (handler : jsval -> JS A) : JS A := fun st =>
  match m st with
  | (Normal a, st') => (Normal a, st')
  | (Throw x, st') => handler x st'
  end.

Definition get_state : JS state := fun st => (Normal st, st).
Definition modify (f : state -> state) : JS unit := fun st => (Normal tt, f st).

Declare Scope js_scope.
Delimit Scope js_scope with js.
Notation "x <- m ;; k" := (bind m (fun x => k))
  (at level 100, m at next level, k at level 200, right associativity) : js_scope.
Notation "m ;;; k" := (bind m (fun _ => k))
  (at level 100, k at level 200, right associativity) : js_scope.
Open Scope js_scope.

(** The state a computation leaves, and the way it completed. *)
Definition exec {A} (m : JS A) (st : state) : state := snd (m st).
Definition outcome {A} (m : JS A) (st : state) : completion A := fst (m st).

(** [v.name]: reading a property of [null] or [undefined] throws a
    TypeError, a property an object lacks reads as [undefined].  None of the
    property names this module reads exists on the prototypes of numbers,
    booleans or strings, so every read on a primitive is [undefined]. *)
Definition get_prop (v : jsval) (name : string) : JS jsval := fun st =>
  match v with
  | VUndefined | VNull => (Throw (VObj TypeError_ref), st)
  | VObj r => (Normal (default VUndefined (object_at st r !! name)), st)
  | _ => (Normal VUndefined, st)
  end.

(** ** Collaborators

    The geolocation service, the preference service, the event channel and
    the promise library are not part of this module.  Each is modelled by
    what the module can observe of it. *)

(** What a call on the geolocation service does: it returns, or it throws. *)
Inductive reply (A : Type) :=
| Returns (a : A)
| Throws (exception : jsval).
Arguments Returns {A} a.
Arguments Throws {A} exception.

Definition log_call (c : provider_call) : JS unit :=
  modify (fun st => set_provider_log (provider_log st ++ [c]) st).

(** [GeolocationSvc.getCurrentPosition(success, fail, options)].  The
    callbacks run on a later turn (see [getCurrentPosition_success] and
    [getCurrentPosition_fail]), never inside the call. *)
Definition GeolocationSvc_getCurrentPosition
    (provider : reply unit) (deferred : nat) (options : Options) : JS unit :=
  log_call (Call_getCurrentPosition deferred options) ;;;
  match provider with
  | Returns _ => ret tt
  | Throws x => throw x
  end.

(** [GeolocationSvc.watchPosition(success, fail, options)]: a call that
    returns has registered a watch and returns its identifier; a call that
    throws has registered nothing. *)
Definition GeolocationSvc_watchPosition
    (provider : reply nat) (deferred : nat) (options : Options) : JS nat :=
  log_call (Call_watchPosition deferred options) ;;;
  match provider with
  | Returns id =>
      modify (fun st => set_registered (registered st ++ [id]) st) ;;;
      ret id
  | Throws x => throw x
  end.

(** [GeolocationSvc.clearWatch(id)] drops the watch with that identifier. *)
Definition GeolocationSvc_clearWatch (id : nat) : JS unit :=
  log_call (Call_clearWatch id) ;;;
  modify (fun st =>
    set_registered (filter (fun w => w ≠ id) (registered st)) st).

Definition PrefSvc_isSet (key : string) : JS bool := fun st =>
  (Normal (bool_decide (is_Some (prefs st !! key))), st).

Definition PrefSvc_set (key : string) (v : prefval) : JS unit :=
  modify (fun st => set_prefs (<[key := v]> (prefs st)) st).

(** [PrefSvc.get(key, false)] for the boolean preference of this module.
    The entry is only ever written by the [allowed] setter; an entry of
    another type is read through its truth value. *)
Definition PrefSvc_get_bool (key : string) (prefs : gmap string prefval) : bool :=
  match prefs !! key with
  | None => false
  | Some (PBool b) => b
  | Some (PInt n) => negb (n =? 0)%Z
  | Some (PStr s) => negb (String.eqb s "")
  end.

(** [emit(this, type, ...args)]: listeners only observe. *)
Definition emit (type : string) (args : list jsval) : JS unit :=
  modify (fun st =>
    set_events (events st ++ [{| ev_type := type; ev_args := args |}]) st).

(** [defer()]: a fresh pending promise, named by its index. *)
Definition defer : JS nat := fun st =>
  (Normal (length (deferreds st)),
   set_deferreds (deferreds st ++ [Pending]) st).

(** A promise settles once; settling a settled promise does nothing. *)
Definition settle (d : nat) (p : promise) : JS unit :=
  modify (fun st =>
    match deferreds st !! d with
    | Some Pending => set_deferreds (<[d := p]> (deferreds st)) st
    | _ => st
    end).

Definition resolve (d : nat) (v : jsval) : JS unit := settle d (Resolved v).
Definition reject (d : nat) (reason : jsval) : JS unit := settle d (Rejected reason).

(** ** The class *)

(** [ALLOW_GEOLOCATION_PREF]: the key of the persisted permission. *)
Definition ALLOW_GEOLOCATION_PREF (st : state) : string :=
  join "." ["extensions"; self_id st; "allowGeolocation"].

(** [initialize]: the state of a new instance in a host whose application
    version is in the legacy range iff [v1], with package identifier [id],
    objects [h] and preferences [p].  The singleton is built without
    options, so [merge] yields the defaults. *)
Definition initialize (v1 : bool) (id : string)
    (h : gmap nat (gmap string jsval)) (p : gmap string prefval) : state :=
  let p' :=
    if v1 then
      fold_left (fun (acc : gmap string prefval) (kv : string * prefval) =>
                   if bool_decide (is_Some (acc !! kv.1)) then acc
                   else <[kv.1 := kv.2]> acc)
                GEO_API_V1_VALUES p
    else p in
  {| priv_options := {| opt_enableHighAccuracy := VBool false;
                        opt_timeout := VNum (15 * 1000) |};
     priv_watchID := None;
     priv_position := None;
     priv_address := VUndefined;
     priv_allowed :=
       PrefSvc_get_bool (join "." ["extensions"; id; "allowGeolocation"]) p';
     GEO_API_V1 := v1;
     self_id := id;
     heap := h;
     prefs := p';
     provider_log := [];
     registered := [];
     events := [];
     deferreds := [] |}.

Definition enableHighAccuracy : JS jsval :=
  st <- get_state ;; ret (opt_enableHighAccuracy (priv_options st)).

Definition set_enableHighAccuracy (enableHighAccuracy : jsval) : JS unit :=
  modify (fun st =>
    set_priv_options
      {| opt_enableHighAccuracy := enableHighAccuracy;
         opt_timeout := opt_timeout (priv_options st) |} st).

Definition timeout : JS jsval :=
  st <- get_state ;; ret (opt_timeout (priv_options st)).

Definition set_timeout (timeout : jsval) : JS unit :=
  modify (fun st =>
    set_priv_options
      {| opt_enableHighAccuracy := opt_enableHighAccuracy (priv_options st);
         opt_timeout := timeout |} st).

Definition position : JS jsval :=
  st <- get_state ;; ret (of_nullable (priv_position st)).

Definition timestamp : JS jsval :=
  p <- position ;;
  if truthy p then (p' <- position ;; get_prop p' "timestamp") else ret VNull.

Definition coords : JS jsval :=
  p <- position ;;
  if truthy p then (p' <- position ;; get_prop p' "coords") else ret VNull.

(** The six helpers share one shape:
    [(this.coords) ? this.coords.field : fallback]. *)
Definition coords_field (field : string) (fallback : jsval) : JS jsval :=
  c <- coords ;;
  if truthy c then (c' <- coords ;; get_prop c' field) else ret fallback.

Definition latitude : JS jsval := coords_field "latitude" (VStr "").
Definition longitude : JS jsval := coords_field "longitude" (VStr "").
Definition accuracy : JS jsval := coords_field "accuracy" VNull.
Definition altitude : JS jsval := coords_field "altitude" VNull.
Definition altitudeAccuracy : JS jsval := coords_field "altitudeAccuracy" VNull.
Definition heading : JS jsval := coords_field "heading" VNull.
Definition speed : JS jsval := coords_field "speed" VNull.

(** [(this.position.address) ? this.position.address : null] *)
Definition address : JS jsval :=
  p <- position ;;
  a <- get_prop p "address" ;;
  if truthy a then (p' <- position ;; get_prop p' "address") else ret VNull.

Definition isWatching : JS bool :=
  st <- get_state ;; ret (bool_decide (priv_watchID st ≠ None)).

Definition stopWatching : JS unit :=
  w <- isWatching ;;
  if w then
    st <- get_state ;;
    match priv_watchID st with
    | Some id => GeolocationSvc_clearWatch id
    | None => ret tt
    end ;;;
    modify (set_priv_watchID None)
  else ret tt.

Definition allowed : JS bool :=
  st <- get_state ;; ret (priv_allowed st).

Definition set_allowed (allow : bool) : JS unit :=
  modify (set_priv_allowed allow) ;;;
  st <- get_state ;;
  PrefSvc_set (ALLOW_GEOLOCATION_PREF st) (PBool allow) ;;;
  if negb allow then stopWatching else ret tt.

Definition _setposition (position : ref) : JS unit :=
  st <- get_state ;;
  if loose_neq_obj position (priv_position st) then
    modify (set_priv_position (Some position)) ;;;
    c <- coords ;;
    emit "coords" [c] ;;;
    if GEO_API_V1 st then
      a <- get_prop (VObj position) "address" ;;
      modify (set_priv_address a) ;;;
      a' <- address ;;
      emit "address" [a']
    else ret tt
  else ret tt.

Definition _onerror (e : ref) : JS unit :=
  code <- get_prop (VObj e) "code" ;;
  denied <- get_prop (VObj e) "PERMISSION_DENIED" ;;
  if strict_eq code denied then
    emit "error" [VStr "permission-denied"]
  else
    code <- get_prop (VObj e) "code" ;;
    unavailable <- get_prop (VObj e) "POSITION_UNAVAILABLE" ;;
    if strict_eq code unavailable then
      emit "error" [VStr "position-unavailable"]
    else
      code <- get_prop (VObj e) "code" ;;
      timed_out <- get_prop (VObj e) "TIMEOUT" ;;
      if strict_eq code timed_out then
        t <- timeout ;;
        emit "error" [VStr "timeout"; t]
      else ret tt.

(** The [success] and [fail] closures that [getCurrentPosition] hands to
    the service, for the call that created [deferred]. *)
Definition getCurrentPosition_success (deferred : nat) (position : ref) : JS unit :=
  _setposition position ;;;
  resolve deferred (VObj position).

Definition getCurrentPosition_fail (deferred : nat) (positionError : ref) : JS unit :=
  _onerror positionError ;;;
  reject deferred (VObj positionError).

Definition getCurrentPosition (provider : reply unit) : JS nat :=
  deferred <- defer ;;
  a <- allowed ;;
  (if a then
     st <- get_state ;;
     GeolocationSvc_getCurrentPosition provider deferred (priv_options st)
   else
     _onerror ALLOWED_ERROR_ref ;;;
     reject deferred (VObj ALLOWED_ERROR_ref)) ;;;
  ret deferred.

(** The [success] and [fail] closures that [watchPosition] hands to the
    service, for the call that created [deferred]. *)
Definition watchPosition_success (deferred : nat) (position : ref) : JS unit :=
  _setposition position ;;;
  resolve deferred (VObj position).

Definition watchPosition_fail (deferred : nat) (positionError : ref) : JS unit :=
  _onerror positionError ;;;
  reject deferred (VObj positionError).

Definition watchPosition (provider : reply nat) : JS nat :=
  deferred <- defer ;;
  a <- allowed ;;
  (if a then
     w <- isWatching ;;
     if negb w then
       try_catch
         (st <- get_state ;;
          id <- GeolocationSvc_watchPosition provider deferred (priv_options st) ;;
          modify (set_priv_watchID (Some id)))
         (fun exception => reject deferred exception)
     else
       p <- position ;;
       resolve deferred p
   else
     stopWatching ;;;
     _onerror ALLOWED_ERROR_ref ;;;
     reject deferred (VObj ALLOWED_ERROR_ref)) ;;;
  ret deferred.

Definition unload (reason : string) : JS unit :=
  stopWatching ;;;
  if String.eqb reason "disable" then set_allowed false else ret tt.

(** ** Operations as a transition system *)

(** Everything that can happen to an instance: a call of a public member,
    the service running one of the callbacks it was handed, or a
    collaborator creating an object. *)
Inductive action :=
| Assign_allowed (allow : bool)
| Assign_enableHighAccuracy (v : jsval)
| Assign_timeout (v : jsval)
| Invoke_getCurrentPosition (provider : reply unit)
| Invoke_watchPosition (provider : reply nat)
| Invoke_stopWatching
| Invoke_unload (reason : string)
| Run_getCurrentPosition_success (deferred : nat) (position : ref)
| Run_getCurrentPosition_fail (deferred : nat) (positionError : ref)
| Run_watchPosition_success (deferred : nat) (position : ref)
| Run_watchPosition_fail (deferred : nat) (positionError : ref)
| Allocate (n : nat) (object : gmap string jsval).

Definition perform (a : action) (st : state) : state :=
  match a with
  | Assign_allowed allow => exec (set_allowed allow) st
  | Assign_enableHighAccuracy v => exec (set_enableHighAccuracy v) st
  | Assign_timeout v => exec (set_timeout v) st
  | Invoke_getCurrentPosition provider => exec (getCurrentPosition provider) st
  | Invoke_watchPosition provider => exec (watchPosition provider) st
  | Invoke_stopWatching => exec stopWatching st
  | Invoke_unload reason => exec (unload reason) st
  | Run_getCurrentPosition_success d p => exec (getCurrentPosition_success d p) st
  | Run_getCurrentPosition_fail d e => exec (getCurrentPosition_fail d e) st
  | Run_watchPosition_success d p => exec (watchPosition_success d p) st
  | Run_watchPosition_fail d e => exec (watchPosition_fail d e) st
  | Allocate n o =>
      {| priv_options := priv_options st; priv_watchID := priv_watchID st;
         priv_position := priv_position st; priv_address := priv_address st;
         priv_allowed := priv_allowed st; GEO_API_V1 := GEO_API_V1 st;
         self_id := self_id st; heap := <[n := o]> (heap st); prefs := prefs st;
         provider_log := provider_log st; registered := registered st;
         events := events st; deferreds := deferreds st |}
  end.

(** The states an instance can be in. *)
Inductive reachable : state -> Prop :=
| reachable_initialize v1 id h p : reachable (initialize v1 id h p)
| reachable_perform a st : reachable st -> reachable (perform a st).

(** The stored handle names the one watch the service holds, or is [null]
    and the service holds none. *)
Definition watch_inv (st : state) : Prop :=
  registered st =
  match priv_watchID st with
  | Some id => [id]
  | None => []
  end.

(** How many watch registrations the service has been asked for. *)
Fixpoint registrations (log : list provider_call) : nat :=
  match log with
  | [] => 0
  | Call_watchPosition _ _ :: rest => S (registrations rest)
  | _ :: rest => registrations rest
  end.

(** ** Auxiliary notions for the statements *)

(** The value of [r.name] for an object [r]. *)
Definition prop (st : state) (r : ref) (name : string) : jsval :=
  default VUndefined (object_at st r !! name).

(** The arguments of the ["error"] notification that [_onerror] emits for
    [e], if it emits one. *)
Definition classify (st : state) (e : ref) : option (list jsval) :=
  if strict_eq (prop st e "code") (prop st e "PERMISSION_DENIED") then
    Some [VStr "permission-denied"]
  else if strict_eq (prop st e "code") (prop st e "POSITION_UNAVAILABLE") then
    Some [VStr "position-unavailable"]
  else if strict_eq (prop st e "code") (prop st e "TIMEOUT") then
    Some [VStr "timeout"; opt_timeout (priv_options st)]
  else None.

(** The payload of the ["address"] notification for a cached sample. *)
Definition address_of (st : state) (pos : ref) : jsval :=
  if truthy (prop st pos "address") then prop st pos "address" else VNull.

(** The notifications a new sample gives rise to, in emission order. *)
Definition notifications (st : state) (pos : ref) : list emitted :=
  {| ev_type := "coords"; ev_args := [prop st pos "coords"] |} ::
  (if GEO_API_V1 st then
     [{| ev_type := "address"; ev_args := [address_of st pos] |}]
   else []).

(** How many ["coords"] notifications a channel has carried. *)
Definition coords_count (evs : list emitted) : nat :=
  length (filter (fun ev => ev_type ev = "coords") evs).

(** What [stopWatching] leaves of a state. *)
Definition stopped (st : state) : state :=
  match priv_watchID st with
  | Some id =>
      set_priv_watchID None
        (set_registered (filter (fun w => w ≠ id) (registered st))
           (set_provider_log (provider_log st ++ [Call_clearWatch id]) st))
  | None => st
  end.

(** ** Sample instances *)

(** A modern host whose service has produced two samples with the same
    fields (objects 1 and 2), a timeout error (object 3) and an error with
    a code outside the three known kinds (object 4). *)
Definition sample_heap : gmap nat (gmap string jsval) :=
  <[0 := <["latitude" := VNum 10]> (<["longitude" := VNum 20]> ∅)]>
  (<[1 := <["coords" := VObj (Heap 0)]> (<["timestamp" := VNum 1]> ∅)]>
  (<[2 := <["coords" := VObj (Heap 0)]> (<["timestamp" := VNum 1]> ∅)]>
  (<[3 := <["code" := VNum 3]> (<["PERMISSION_DENIED" := VNum 1]>
          (<["POSITION_UNAVAILABLE" := VNum 2]> (<["TIMEOUT" := VNum 3]> ∅)))]>
  (<[4 := <["code" := VNum 4]> (<["PERMISSION_DENIED" := VNum 1]>
          (<["POSITION_UNAVAILABLE" := VNum 2]> (<["TIMEOUT" := VNum 3]> ∅)))]>
   ∅)))).

Definition fresh : state := initialize false "jid1-geolocation" sample_heap ∅.
Definition permitted : state := perform (Assign_allowed true) fresh.
Definition watching : state := perform (Invoke_watchPosition (Returns 7)) permitted.
Definition requested : state := perform (Invoke_getCurrentPosition (Returns tt)) permitted.

(** The sample instance after its one-shot request was answered with
    object 1, and a legacy host in the same situation whose sample carries
    an address (object 6). *)
Definition located : state :=
  perform (Run_getCurrentPosition_success 0 (Heap 1)) requested.

Definition legacy_heap : gmap nat (gmap string jsval) :=
  <[5 := <["coords" := VObj (Heap 0)]> (<["address" := VObj (Heap 6)]> ∅)]>
  (<[6 := <["city" := VStr "Toronto"]> ∅]> sample_heap).

Definition legacy_requested : state :=
  perform (Invoke_getCurrentPosition (Returns tt))
    (perform (Assign_allowed true)
       (initialize true "jid1-geolocation" legacy_heap ∅)).

(** ** Further invariants and notions *)

(** While the permission is withheld no handle is stored. *)
Definition gate_inv (st : state) : Prop :=
  priv_allowed st = false → priv_watchID st = None.

(** The flag in the namespace is the one the preference service holds. *)
Definition persisted_inv (st : state) : Prop :=
  priv_allowed st =
  PrefSvc_get_bool (ALLOW_GEOLOCATION_PREF st) (prefs st).

(** The notifications an instance on a host of revision [v1] can emit. *)
Definition event_of_host (v1 : bool) (ev : emitted) : Prop :=
  ev_type ev = "coords" ∨ ev_type ev = "error" ∨
  (ev_type ev = "address" ∧ v1 = true).

(** The actions in which the service hands over a sample. *)
Definition delivers_sample (a : action) : bool :=
  match a with
  | Run_getCurrentPosition_success _ _ | Run_watchPosition_success _ _ => true
  | _ => false
  end.

(** The actions in which a collaborator creates or changes an object. *)
Definition allocates (a : action) : bool :=
  match a with
  | Allocate _ _ => true
  | _ => false
  end.

(** The read-only members that look at the cached sample. *)
Definition sample_getters : list (JS jsval) :=
  [position; timestamp; coords; latitude; longitude; accuracy; altitude;
   altitudeAccuracy; heading; speed; address].

(** The compatibility value of a preference key, if it has one. *)
Definition compatibility_value (key : string) : option prefval :=
  (list_to_map GEO_API_V1_VALUES : gmap string prefval) !! key.

(** A field of the coordinates of a cached sample: the fallback when the
    sample has no truthy [coords], else what reading that field of
    [coords] gives. *)
Definition coords_field_of (st : state) (pos : ref) (field : string)
    (fallback : jsval) : jsval :=
  let c := prop st pos "coords" in
  if truthy c then
    match c with
    | VObj c' => prop st c' field
    | _ => VUndefined
    end
  else fallback.

Ltac js_unfold :=
  unfold exec, outcome, bind, ret, throw, try_catch, modify, get_state in *.

(** * Verification *)

(** ** Running method bodies *)

Section Deferreds.
Implicit Types (l : list promise) (p q : promise).

Lemma lookup_snoc l p : (l ++ [p]) !! length l = Some p.
Proof. by apply list_lookup_middle. Qed.

Lemma insert_snoc l p q : <[length l := q]> (l ++ [p]) = l ++ [q].
Proof.
  rewrite insert_app_r_alt by lia.
  by rewrite Nat.sub_diag.
Qed.

Lemma settle_pending d p st :
  deferreds st !! d = Some Pending →
  deferreds (exec (settle d p) st) !! d = Some p.
Proof.
  intros Hd. unfold exec, settle, modify. cbn. rewrite Hd. cbn.
  apply list_lookup_insert_eq. by eapply lookup_lt_Some.
Qed.
End Deferreds.

(** [settle] touches nothing but the promises. *)
Lemma settle_frame d p st :
  let st' := exec (settle d p) st in
  outcome (settle d p) st = Normal tt ∧
  events st' = events st ∧ priv_position st' = priv_position st ∧
  priv_address st' = priv_address st ∧ priv_watchID st' = priv_watchID st ∧
  registered st' = registered st ∧ provider_log st' = provider_log st ∧
  priv_allowed st' = priv_allowed st ∧ prefs st' = prefs st.
Proof.
  unfold exec, outcome, settle, modify. cbn.
  by destruct (deferreds st !! d) as [[| |]|].
Qed.

Lemma _onerror_run e st :
  _onerror e st =
  (Normal tt,
   match classify st e with
   | Some args =>
       set_events (events st ++ [{| ev_type := "error"; ev_args := args |}]) st
   | None => st
   end).
Proof.
  unfold _onerror, classify, prop, timeout, emit, get_prop. js_unfold. cbn.
  destruct (strict_eq _ (default VUndefined (object_at st e !! "PERMISSION_DENIED")));
    [done|].
  destruct (strict_eq _ (default VUndefined (object_at st e !! "POSITION_UNAVAILABLE")));
    [done|].
  by destruct (strict_eq _ (default VUndefined (object_at st e !! "TIMEOUT"))).
Qed.

(** The plain object [ALLOWED_ERROR] carries none of the three constants
    its [code] is compared with. *)
Lemma classify_ALLOWED_ERROR st : classify st ALLOWED_ERROR_ref = None.
Proof. reflexivity. Qed.

Lemma _setposition_same pos st :
  priv_position st = Some pos →
  _setposition pos st = (Normal tt, st).
Proof.
  intros Hp. unfold _setposition, loose_neq_obj. js_unfold. cbn.
  rewrite Hp. by rewrite bool_decide_eq_true_2.
Qed.

Lemma _setposition_new pos st :
  priv_position st ≠ Some pos →
  _setposition pos st =
  (Normal tt,
   set_events (events st ++ notifications st pos)
     (if GEO_API_V1 st then
        set_priv_address (prop st pos "address")
          (set_priv_position (Some pos) st)
      else set_priv_position (Some pos) st)).
Proof.
  intros Hp.
  assert (loose_neq_obj pos (priv_position st) = true) as Hneq.
  { unfold loose_neq_obj. destruct (priv_position st) as [r|]; [|done].
    rewrite bool_decide_eq_false_2; [done|]. congruence. }
  unfold _setposition, notifications, address_of, coords, address, position,
    emit, get_prop, prop.
  js_unfold. cbn. rewrite Hneq. clear Hp Hneq.
  destruct (GEO_API_V1 st); [|by destruct pos].
  destruct pos as [| |n]; cbn;
    match goal with |- context [truthy ?v] => destruct (truthy v) end;
    cbn; unfold set_events; cbn; by rewrite <- app_assoc.
Qed.

Lemma stopWatching_run st : stopWatching st = (Normal tt, stopped st).
Proof.
  unfold stopWatching, stopped, isWatching, GeolocationSvc_clearWatch, log_call.
  js_unfold. cbn. destruct (priv_watchID st) as [id|] eqn:Hw; [|done].
  rewrite bool_decide_eq_true_2 by done. by rewrite Hw.
Qed.

Lemma set_allowed_run allow st :
  set_allowed allow st =
  (Normal tt,
   let st1 :=
     set_prefs (<[ALLOW_GEOLOCATION_PREF st := PBool allow]> (prefs st))
       (set_priv_allowed allow st) in
   if allow then st1 else stopped st1).
Proof.
  unfold set_allowed, PrefSvc_set. js_unfold.
  destruct allow; cbn -[stopWatching]; [done|]. by rewrite stopWatching_run.
Qed.

Lemma getCurrentPosition_blocked provider st :
  priv_allowed st = false →
  getCurrentPosition provider st =
  (Normal (length (deferreds st)),
   set_deferreds (deferreds st ++ [Rejected (VObj ALLOWED_ERROR_ref)]) st).
Proof.
  intros Ha. unfold getCurrentPosition, defer, allowed, reject. js_unfold.
  cbn -[_onerror settle].
  rewrite Ha, _onerror_run, classify_ALLOWED_ERROR.
  unfold settle, modify. cbn. by rewrite lookup_snoc, insert_snoc.
Qed.

Lemma getCurrentPosition_allowed provider st :
  priv_allowed st = true →
  getCurrentPosition provider st =
  (match provider with
   | Returns _ => Normal (length (deferreds st))
   | Throws x => Throw x
   end,
   set_provider_log
     (provider_log st ++
      [Call_getCurrentPosition (length (deferreds st)) (priv_options st)])
     (set_deferreds (deferreds st ++ [Pending]) st)).
Proof.
  intros Ha.
  unfold getCurrentPosition, defer, allowed, GeolocationSvc_getCurrentPosition,
    log_call.
  js_unfold. cbn. rewrite Ha. by destruct provider.
Qed.

Lemma watchPosition_blocked provider st :
  priv_allowed st = false →
  watchPosition provider st =
  (Normal (length (deferreds st)),
   set_deferreds (deferreds st ++ [Rejected (VObj ALLOWED_ERROR_ref)])
     (stopped st)).
Proof.
  intros Ha. unfold watchPosition, defer, allowed, reject. js_unfold.
  cbn -[stopWatching _onerror settle].
  rewrite Ha, stopWatching_run, _onerror_run, classify_ALLOWED_ERROR.
  unfold stopped, settle, modify. cbn.
  destruct (priv_watchID st) eqn:Hw; cbn;
    by rewrite ?Ha, ?Hw, lookup_snoc, insert_snoc.
Qed.

Lemma watchPosition_watching provider id st :
  priv_allowed st = true →
  priv_watchID st = Some id →
  watchPosition provider st =
  (Normal (length (deferreds st)),
   set_deferreds
     (deferreds st ++ [Resolved (of_nullable (priv_position st))]) st).
Proof.
  intros Ha Hw.
  unfold watchPosition, defer, allowed, isWatching, position, resolve.
  js_unfold. cbn. rewrite Ha, Hw. rewrite bool_decide_eq_true_2 by done. cbn.
  unfold settle, modify. cbn. by rewrite lookup_snoc, insert_snoc.
Qed.

Lemma watchPosition_registers id st :
  priv_allowed st = true →
  priv_watchID st = None →
  watchPosition (Returns id) st =
  (Normal (length (deferreds st)),
   set_priv_watchID (Some id)
     (set_registered (registered st ++ [id])
        (set_provider_log
           (provider_log st ++
            [Call_watchPosition (length (deferreds st)) (priv_options st)])
           (set_deferreds (deferreds st ++ [Pending]) st)))).
Proof.
  intros Ha Hw.
  unfold watchPosition, defer, allowed, isWatching,
    GeolocationSvc_watchPosition, log_call.
  js_unfold. cbn. by rewrite Ha, Hw.
Qed.

Lemma watchPosition_registration_throws x st :
  priv_allowed st = true →
  priv_watchID st = None →
  watchPosition (Throws x) st =
  (Normal (length (deferreds st)),
   set_provider_log
     (provider_log st ++
      [Call_watchPosition (length (deferreds st)) (priv_options st)])
     (set_deferreds (deferreds st ++ [Rejected x]) st)).
Proof.
  intros Ha Hw.
  unfold watchPosition, defer, allowed, isWatching,
    GeolocationSvc_watchPosition, log_call, reject.
  js_unfold. cbn. rewrite Ha, Hw. cbn.
  unfold settle, modify. cbn. by rewrite lookup_snoc, insert_snoc.
Qed.

(** The two [fail] closures run [_onerror] and then reject. *)
Lemma fail_run (watch : bool) d e st :
  (if watch then watchPosition_fail else getCurrentPosition_fail) d e st =
  settle d (Rejected (VObj e)) (exec (_onerror e) st).
Proof.
  destruct watch; unfold watchPosition_fail, getCurrentPosition_fail, reject;
    js_unfold; cbn -[_onerror settle]; by rewrite _onerror_run.
Qed.

(** The two [success] closures run [_setposition] and then resolve. *)
Lemma success_run (watch : bool) d pos st :
  (if watch then watchPosition_success else getCurrentPosition_success) d pos st =
  settle d (Resolved (VObj pos)) (exec (_setposition pos) st).
Proof.
  destruct (decide (priv_position st = Some pos)) as [Hp|Hp];
    destruct watch;
    unfold watchPosition_success, getCurrentPosition_success, resolve;
    js_unfold; cbn -[_setposition settle];
    by rewrite ?(_setposition_same _ _ Hp), ?(_setposition_new _ _ Hp).
Qed.

(** ** Permission gate of [getCurrentPosition] *)

(** C3. A call of [getCurrentPosition()] while [allowed] is false returns a
    promise that is rejected with [ALLOWED_ERROR] and makes no call on the
    geolocation service; while [allowed] is true it calls the service's
    [getCurrentPosition] exactly once, with the options of that moment. *)
Theorem getCurrentPosition_permission_gate (provider : reply unit) (st : state) :
  let d := length (deferreds st) in
  let st' := exec (getCurrentPosition provider) st in
  (priv_allowed st = false →
     outcome (getCurrentPosition provider) st = Normal d ∧
     deferreds st' = deferreds st ++ [Rejected (VObj ALLOWED_ERROR_ref)] ∧
     provider_log st' = provider_log st) ∧
  (priv_allowed st = true →
     provider_log st' =
     provider_log st ++ [Call_getCurrentPosition d (priv_options st)]).
Proof.
  cbn zeta. unfold exec, outcome. split; intros Ha.
  - by rewrite getCurrentPosition_blocked.
  - by rewrite getCurrentPosition_allowed.
Qed.

Lemma getCurrentPosition_permission_gate_witness :
  (priv_allowed fresh = false ∧
   deferreds (exec (getCurrentPosition (Returns tt)) fresh)
   = [Rejected (VObj ALLOWED_ERROR_ref)] ∧
   provider_log (exec (getCurrentPosition (Returns tt)) fresh) = []) ∧
  (priv_allowed permitted = true ∧
   provider_log (exec (getCurrentPosition (Returns tt)) permitted)
   = [Call_getCurrentPosition 0
        {| opt_enableHighAccuracy := VBool false; opt_timeout := VNum 15000 |}]).
Proof.
  split.
  - split; [reflexivity|].
    destruct (getCurrentPosition_permission_gate (Returns tt) fresh) as [H _].
    destruct (H eq_refl) as (_ & Hd & Hl). split; [exact Hd | exact Hl].
  - split; [reflexivity|].
    destruct (getCurrentPosition_permission_gate (Returns tt) permitted) as [_ H].
    exact (H eq_refl).
Defined.

(** ** Error notifications *)

(** A failure the service reports is notified when its code is one of the
    three kinds the error object itself names. *)
Lemma provider_error_notified (watch : bool) d e args st :
  classify st e = Some args →
  events (exec ((if watch then watchPosition_fail else getCurrentPosition_fail) d e) st)
  = events st ++ [{| ev_type := "error"; ev_args := args |}].
Proof.
  intros Hc. unfold exec at 1. rewrite fail_run.
  destruct (settle_frame d (Rejected (VObj e)) (exec (_onerror e) st))
    as (_ & Hev & _).
  unfold exec at 1 in Hev. rewrite Hev.
  unfold exec. by rewrite _onerror_run, Hc.
Qed.

(** C2. While [allowed] is false, [getCurrentPosition()] and
    [watchPosition()] reject their promise with [ALLOWED_ERROR] but emit no
    ["error"] notification: [ALLOWED_ERROR] is a plain object without the
    constants [PERMISSION_DENIED], [POSITION_UNAVAILABLE] and [TIMEOUT]
    that [_onerror] compares its code with, so none of the three branches
    is taken. *)
Theorem not_allowed_is_not_notified (st : state) :
  priv_allowed st = false →
  (∀ provider,
     events (exec (getCurrentPosition provider) st) = events st ∧
     deferreds (exec (getCurrentPosition provider) st)
     = deferreds st ++ [Rejected (VObj ALLOWED_ERROR_ref)]) ∧
  (∀ provider,
     events (exec (watchPosition provider) st) = events st ∧
     deferreds (exec (watchPosition provider) st)
     = deferreds st ++ [Rejected (VObj ALLOWED_ERROR_ref)]).
Proof.
  intros Ha. unfold exec. split; intros provider.
  - by rewrite getCurrentPosition_blocked.
  - rewrite watchPosition_blocked by done. unfold stopped.
    by destruct (priv_watchID st).
Qed.

Lemma not_allowed_is_not_notified_witness :
  priv_allowed fresh = false ∧
  events (exec (getCurrentPosition (Returns tt)) fresh) = [] ∧
  events (exec (watchPosition (Returns 7)) fresh) = [].
Proof.
  split; [reflexivity|].
  destruct (not_allowed_is_not_notified fresh eq_refl) as [Hg Hw].
  split; [exact (proj1 (Hg (Returns tt))) | exact (proj1 (Hw (Returns 7)))].
Defined.

(** ** [watchPosition] while watching *)

(** C5. A call of [watchPosition()] while [allowed] is true and a handle is
    stored makes no call on the geolocation service, leaves the stored
    handle as it is, and returns a promise already resolved with the cached
    sample. *)
Theorem watchPosition_while_watching (provider : reply nat) (id : nat) (st : state) :
  priv_allowed st = true →
  priv_watchID st = Some id →
  let st' := exec (watchPosition provider) st in
  outcome (watchPosition provider) st = Normal (length (deferreds st)) ∧
  provider_log st' = provider_log st ∧
  registered st' = registered st ∧
  priv_watchID st' = Some id ∧
  deferreds st' = deferreds st ++ [Resolved (of_nullable (priv_position st))] ∧
  priv_position st' = priv_position st ∧
  events st' = events st.
Proof.
  intros Ha Hw. cbn zeta. unfold exec, outcome.
  rewrite (watchPosition_watching provider id) by done. by cbn.
Qed.

Lemma watchPosition_while_watching_witness :
  priv_allowed watching = true ∧ priv_watchID watching = Some 7 ∧
  provider_log (exec (watchPosition (Returns 8)) watching) = provider_log watching ∧
  priv_watchID (exec (watchPosition (Returns 8)) watching) = Some 7 ∧
  deferreds (exec (watchPosition (Returns 8)) watching) = [Pending; Resolved VNull].
Proof.
  split; [reflexivity|]. split; [reflexivity|].
  destruct (watchPosition_while_watching (Returns 8) 7 watching eq_refl eq_refl)
    as (_ & Hl & _ & Hw & Hd & _).
  split; [exact Hl|]. split; [exact Hw | exact Hd].
Defined.

(** ** The [allowed] setter *)

(** C7. Assigning [allowed] completes synchronously, stores the assigned
    value in the namespace and writes it to the preference service under
    [ALLOW_GEOLOCATION_PREF], a key that no operation changes; assigning
    false also clears a stored handle through the service's [clearWatch],
    so that [isWatching()] is false right after. *)
Theorem set_allowed_persists (allow : bool) (st : state) :
  let st' := exec (set_allowed allow) st in
  outcome (set_allowed allow) st = Normal tt ∧
  priv_allowed st' = allow ∧
  prefs st' = <[ALLOW_GEOLOCATION_PREF st := PBool allow]> (prefs st) ∧
  ALLOW_GEOLOCATION_PREF st' = ALLOW_GEOLOCATION_PREF st ∧
  (allow = false →
     outcome isWatching st' = Normal false ∧
     ∀ id, priv_watchID st = Some id →
       provider_log st' = provider_log st ++ [Call_clearWatch id]).
Proof.
  cbn zeta. unfold exec, outcome. rewrite set_allowed_run. cbn.
  destruct allow; cbn.
  - repeat split; try done.
  - unfold stopped, isWatching, ALLOW_GEOLOCATION_PREF. js_unfold. cbn.
    destruct (priv_watchID st) as [w|]; cbn; repeat split; try done.
    intros id [= ->]. done.
Qed.

Lemma set_allowed_persists_witness :
  outcome isWatching (exec (set_allowed false) watching) = Normal false ∧
  provider_log (exec (set_allowed false) watching)
  = provider_log watching ++ [Call_clearWatch 7].
Proof.
  destruct (set_allowed_persists false watching) as (_ & _ & _ & _ & H).
  destruct (H eq_refl) as [Hw Hl].
  split; [exact Hw | exact (Hl 7 eq_refl)].
Defined.

(** ** Synchronous exceptions *)

(** [watchPosition] always returns its promise. *)
Lemma watchPosition_returns provider st :
  outcome (watchPosition provider) st = Normal (length (deferreds st)).
Proof.
  unfold outcome.
  destruct (priv_allowed st) eqn:Ha.
  - destruct (priv_watchID st) as [id|] eqn:Hw.
    + by rewrite (watchPosition_watching provider id).
    + destruct provider as [id|x].
      * by rewrite watchPosition_registers.
      * by rewrite watchPosition_registration_throws.
  - by rewrite watchPosition_blocked.
Qed.

(** [getCurrentPosition] returns its promise whenever the service's
    [getCurrentPosition] returns. *)
Lemma getCurrentPosition_returns st :
  outcome (getCurrentPosition (Returns tt)) st = Normal (length (deferreds st)).
Proof.
  unfold outcome. destruct (priv_allowed st) eqn:Ha.
  - by rewrite getCurrentPosition_allowed.
  - by rewrite getCurrentPosition_blocked.
Qed.

(** C8. [getCurrentPosition()] has no [try] around its call on the
    geolocation service: when [allowed] is true and the service throws [x],
    the method itself throws [x] and the promise it made, which the caller
    never receives, stays pending. *)
Theorem getCurrentPosition_rethrows (x : jsval) (st : state) :
  priv_allowed st = true →
  outcome (getCurrentPosition (Throws x)) st = Throw x ∧
  deferreds (exec (getCurrentPosition (Throws x)) st) = deferreds st ++ [Pending].
Proof.
  intros Ha. unfold exec, outcome. by rewrite getCurrentPosition_allowed.
Qed.

Lemma getCurrentPosition_rethrows_witness :
  priv_allowed permitted = true ∧
  outcome (getCurrentPosition (Throws (VStr "NS_ERROR_FAILURE"))) permitted
  = Throw (VStr "NS_ERROR_FAILURE").
Proof.
  split; [reflexivity|].
  exact (proj1 (getCurrentPosition_rethrows (VStr "NS_ERROR_FAILURE") permitted eq_refl)).
Defined.

(** ** Getters without a cached sample *)

Lemma coords_field_without_sample field fallback st :
  priv_position st = None →
  outcome (coords_field field fallback) st = Normal fallback.
Proof.
  intros Hp. unfold outcome, coords_field, coords, position. js_unfold. cbn.
  by rewrite Hp.
Qed.

(** C9. With no cached sample, [latitude] and [longitude] read as the empty
    string and [accuracy], [altitude], [altitudeAccuracy], [heading] and
    [speed] as [null]; the [address] getter, which reads
    [this.position.address] without the guard its siblings have, throws a
    TypeError. *)
Theorem getters_without_sample (st : state) :
  priv_position st = None →
  outcome latitude st = Normal (VStr "") ∧
  outcome longitude st = Normal (VStr "") ∧
  outcome accuracy st = Normal VNull ∧
  outcome altitude st = Normal VNull ∧
  outcome altitudeAccuracy st = Normal VNull ∧
  outcome heading st = Normal VNull ∧
  outcome speed st = Normal VNull ∧
  outcome address st = Throw (VObj TypeError_ref).
Proof.
  intros Hp.
  unfold latitude, longitude, accuracy, altitude, altitudeAccuracy, heading, speed.
  rewrite !coords_field_without_sample by done.
  repeat split.
  unfold outcome, address, position, get_prop. js_unfold. cbn. by rewrite Hp.
Qed.

Lemma getters_without_sample_witness :
  priv_position fresh = None ∧
  outcome latitude fresh = Normal (VStr "") ∧
  outcome address fresh = Throw (VObj TypeError_ref).
Proof.
  split; [reflexivity|].
  destruct (getters_without_sample fresh eq_refl) as (Hl & _ & _ & _ & _ & _ & _ & Ha).
  split; [exact Hl | exact Ha].
Defined.

(** ** Errors outside the three kinds *)

(** C10. A failure whose code is strictly equal to none of the error
    object's [PERMISSION_DENIED], [POSITION_UNAVAILABLE] and [TIMEOUT]
    emits no notification at all; the callback still completes, and the
    promise of its call, if pending, is rejected with the error object
    itself. *)
Theorem unclassified_error_dropped (watch : bool) (d : nat) (e : ref) (st : state) :
  let fail := if watch then watchPosition_fail else getCurrentPosition_fail in
  strict_eq (prop st e "code") (prop st e "PERMISSION_DENIED") = false →
  strict_eq (prop st e "code") (prop st e "POSITION_UNAVAILABLE") = false →
  strict_eq (prop st e "code") (prop st e "TIMEOUT") = false →
  outcome (fail d e) st = Normal tt ∧
  events (exec (fail d e) st) = events st ∧
  (deferreds st !! d = Some Pending →
   deferreds (exec (fail d e) st) !! d = Some (Rejected (VObj e))).
Proof.
  cbn zeta. intros H1 H2 H3.
  assert (classify st e = None) as Hc by (unfold classify; by rewrite H1, H2, H3).
  assert (exec (_onerror e) st = st) as Hst
    by (unfold exec; by rewrite _onerror_run, Hc).
  unfold exec, outcome. rewrite fail_run, Hst.
  destruct (settle_frame d (Rejected (VObj e)) st) as (Ho & Hev & _).
  split; [exact Ho|]. split; [exact Hev|].
  apply settle_pending.
Qed.

Lemma unclassified_error_dropped_witness :
  events (exec (getCurrentPosition_fail 0 (Heap 4)) requested) = events requested ∧
  deferreds (exec (getCurrentPosition_fail 0 (Heap 4)) requested) !! 0
  = Some (Rejected (VObj (Heap 4))).
Proof.
  destruct (unclassified_error_dropped false 0 (Heap 4) requested
              eq_refl eq_refl eq_refl) as (_ & Hev & Hd).
  split; [exact Hev | exact (Hd eq_refl)].
Defined.

(** ** Change detection *)

Lemma settle_run d p st :
  ∃ l, settle d p st = (Normal tt, set_deferreds l st).
Proof.
  unfold settle, modify.
  destruct (deferreds st !! d) as [[| |]|]; eauto;
    exists (deferreds st); by destruct st.
Qed.

Lemma prop_frame st st' r name :
  heap st' = heap st → prop st' r name = prop st r name.
Proof. intros Hh. unfold prop. destruct r; cbn; by rewrite ?Hh. Qed.

Lemma notifications_frame st st' pos :
  heap st' = heap st → GEO_API_V1 st' = GEO_API_V1 st →
  notifications st' pos = notifications st pos.
Proof.
  intros Hh Hv. unfold notifications, address_of.
  by rewrite Hv, !(prop_frame st st') by done.
Qed.

Lemma classify_frame st st' e :
  heap st' = heap st → priv_options st' = priv_options st →
  classify st' e = classify st e.
Proof.
  intros Hh Ho. unfold classify. by rewrite Ho, !(prop_frame st st') by done.
Qed.

Lemma coords_count_notifications st pos evs :
  coords_count (evs ++ notifications st pos) = S (coords_count evs).
Proof.
  unfold coords_count, notifications.
  rewrite filter_app, length_app.
  replace (length (filter _ (_ :: _))) with 1; [lia|].
  by destruct (GEO_API_V1 st).
Qed.

(** What a [success] closure does to the cache and to the channel. *)
Lemma success_effect (watch : bool) d pos st :
  let st' :=
    exec ((if watch then watchPosition_success else getCurrentPosition_success)
            d pos) st in
  priv_position st' = Some pos ∧
  events st' =
    events st ++
    (if bool_decide (priv_position st = Some pos) then []
     else notifications st pos) ∧
  heap st' = heap st ∧ GEO_API_V1 st' = GEO_API_V1 st ∧
  priv_options st' = priv_options st ∧
  priv_watchID st' = priv_watchID st ∧ registered st' = registered st.
Proof.
  cbn zeta. unfold exec at 1 2 3 4 5 6 7. rewrite success_run.
  destruct (settle_run d (Resolved (VObj pos)) (exec (_setposition pos) st))
    as [l ->].
  unfold exec. case_bool_decide as Hp.
  - rewrite (_setposition_same _ _ Hp). cbn. rewrite app_nil_r. repeat split; done.
  - rewrite (_setposition_new _ _ Hp). destruct (GEO_API_V1 st) eqn:Hv; cbn; repeat split; done.
Qed.

(** C4. A [success] callback compares the delivered sample with the cached
    one by reference.  Delivered the cached object itself, it leaves the
    cache and the channel as they are; delivered any other object, whatever
    its fields, it caches that object and emits ["coords"] (then
    ["address"] on a legacy host), so two distinct objects delivered in
    turn add two ["coords"] notifications.  Either way the callback
    completes and the pending promise of its call is resolved with the
    delivered sample. *)
Theorem success_callback_identity (watch : bool) (d : nat) (pos : ref) (st : state) :
  let success := if watch then watchPosition_success else getCurrentPosition_success in
  let st' := exec (success d pos) st in
  outcome (success d pos) st = Normal tt ∧
  (deferreds st !! d = Some Pending →
   deferreds st' !! d = Some (Resolved (VObj pos))) ∧
  (priv_position st = Some pos →
   priv_position st' = priv_position st ∧ events st' = events st) ∧
  (priv_position st ≠ Some pos →
   priv_position st' = Some pos ∧
   events st' = events st ++ notifications st pos ∧
   ∀ (watch2 : bool) (d2 : nat) (pos2 : ref),
     pos2 ≠ pos →
     let success2 :=
       if watch2 then watchPosition_success else getCurrentPosition_success in
     coords_count (events (exec (success2 d2 pos2) st'))
     = 2 + coords_count (events st)).
Proof.
  cbn zeta.
  destruct (success_effect watch d pos st) as (Hp' & Hev' & Hh & Hv & _).
  split; [|split; [|split]].
  - unfold outcome. rewrite success_run.
    by destruct (settle_run d (Resolved (VObj pos)) (exec (_setposition pos) st))
      as [l ->].
  - intros Hd. unfold exec at 1. rewrite success_run.
    apply settle_pending.
    destruct (decide (priv_position st = Some pos)) as [Hp|Hp]; unfold exec.
    + by rewrite (_setposition_same _ _ Hp).
    + rewrite (_setposition_new _ _ Hp). by destruct (GEO_API_V1 st).
  - intros Hp. rewrite Hp', Hev', bool_decide_eq_true_2 by done.
    by rewrite app_nil_r.
  - intros Hp. rewrite bool_decide_eq_false_2 in Hev' by done.
    split; [done|]. split; [done|].
    intros watch2 d2 pos2 Hne.
    destruct (success_effect watch2 d2 pos2
                (exec ((if watch then watchPosition_success
                        else getCurrentPosition_success) d pos) st))
      as (_ & Hev2 & _).
    rewrite Hev2, Hp', bool_decide_eq_false_2 by congruence.
    by rewrite Hev', !coords_count_notifications.
Qed.

Lemma success_callback_identity_witness :
  object_at requested (Heap 1) = object_at requested (Heap 2) ∧
  deferreds (exec (getCurrentPosition_success 0 (Heap 1)) requested) !! 0
  = Some (Resolved (VObj (Heap 1))) ∧
  coords_count
    (events (exec (watchPosition_success 1 (Heap 2))
               (exec (getCurrentPosition_success 0 (Heap 1)) requested))) = 2 ∧
  events (exec (getCurrentPosition_success 1 (Heap 1))
            (exec (getCurrentPosition_success 0 (Heap 1)) requested))
  = events (exec (getCurrentPosition_success 0 (Heap 1)) requested).
Proof.
  split; [reflexivity|].
  destruct (success_callback_identity false 0 (Heap 1) requested)
    as (_ & Hd & _ & Hnew).
  split; [exact (Hd eq_refl)|].
  split.
  - assert (priv_position requested ≠ Some (Heap 1)) as Hp by discriminate.
    destruct (Hnew Hp) as (_ & _ & Htwo).
    assert (Heap 2 ≠ Heap 1) as Hne by discriminate.
    exact (Htwo true 1 (Heap 2) Hne).
  - destruct (success_callback_identity false 1 (Heap 1)
                (exec (getCurrentPosition_success 0 (Heap 1)) requested))
      as (_ & _ & Hsame & _).
    exact (proj2 (Hsame eq_refl)).
Defined.

(** ** Callbacks that arrive after the watch was stopped *)

(** What a [fail] closure does to the cache and to the channel. *)
Lemma fail_effect (watch : bool) d e st :
  let st' :=
    exec ((if watch then watchPosition_fail else getCurrentPosition_fail) d e) st in
  priv_position st' = priv_position st ∧
  events st' =
    events st ++
    match classify st e with
    | Some args => [{| ev_type := "error"; ev_args := args |}]
    | None => []
    end ∧
  priv_watchID st' = priv_watchID st ∧ registered st' = registered st.
Proof.
  cbn zeta. unfold exec at 1 2 3 4. rewrite fail_run.
  destruct (settle_run d (Rejected (VObj e)) (exec (_onerror e) st)) as [l ->].
  unfold exec. rewrite _onerror_run.
  destruct (classify st e); cbn; rewrite ?app_nil_r; repeat split; done.
Qed.

(** Stopping a stored watch, by [stopWatching()] or by revoking the
    permission. *)
Lemma stop_effect (revoke : bool) id st :
  priv_watchID st = Some id →
  let st' := exec (if revoke then set_allowed false else stopWatching) st in
  priv_watchID st' = None ∧
  provider_log st' = provider_log st ++ [Call_clearWatch id] ∧
  registered st' = filter (fun w => w ≠ id) (registered st) ∧
  events st' = events st ∧ priv_position st' = priv_position st ∧
  heap st' = heap st ∧ GEO_API_V1 st' = GEO_API_V1 st ∧
  priv_options st' = priv_options st.
Proof.
  intros Hw. cbn zeta. unfold exec.
  destruct revoke; rewrite ?set_allowed_run, ?stopWatching_run;
    unfold stopped; cbn; rewrite Hw; cbn; repeat split; done.
Qed.

(** C1 (as the code has it). Stopping a stored watch, by [stopWatching()]
    or by assigning false to [allowed], clears the handle through the
    service's [clearWatch], emits nothing and leaves the cached sample
    alone.  The callbacks of the former watch do not look at the handle: a
    [success] that arrives afterwards with an object other than the cached
    one caches it and emits ["coords"] (then ["address"] on a legacy host),
    one that arrives with the cached object changes nothing, and a [fail]
    emits the ["error"] notification of its code, if it has one of the
    three kinds. *)
Theorem late_callbacks_are_processed
    (revoke : bool) (id d : nat) (pos e : ref) (st : state) :
  priv_allowed st = true →
  priv_watchID st = Some id →
  let st1 := exec (if revoke then set_allowed false else stopWatching) st in
  (priv_watchID st1 = None ∧
   outcome isWatching st1 = Normal false ∧
   provider_log st1 = provider_log st ++ [Call_clearWatch id] ∧
   events st1 = events st ∧
   priv_position st1 = priv_position st) ∧
  (let st2 := exec (watchPosition_success d pos) st1 in
   (priv_position st ≠ Some pos →
    priv_position st2 = Some pos ∧
    events st2 = events st ++ notifications st pos) ∧
   (priv_position st = Some pos →
    priv_position st2 = priv_position st ∧ events st2 = events st)) ∧
  (let st2 := exec (watchPosition_fail d e) st1 in
   priv_position st2 = priv_position st ∧
   events st2 =
     events st ++
     match classify st e with
     | Some args => [{| ev_type := "error"; ev_args := args |}]
     | None => []
     end).
Proof.
  intros _ Hw. cbn zeta.
  destruct (stop_effect revoke id st Hw)
    as (Hw1 & Hl1 & _ & Hev1 & Hp1 & Hh1 & Hv1 & Ho1).
  set (st1 := exec (if revoke then set_allowed false else stopWatching) st) in *.
  split; [|split].
  - repeat split; try done.
    unfold outcome, isWatching. js_unfold. cbn. by rewrite Hw1.
  - destruct (success_effect true d pos st1) as (Hp2 & Hev2 & _).
    rewrite Hp2, Hev2, Hp1, Hev1, (notifications_frame st st1) by done.
    split; intros Hp.
    + by rewrite bool_decide_eq_false_2.
    + by rewrite bool_decide_eq_true_2, app_nil_r.
  - destruct (fail_effect true d e st1) as (Hp2 & Hev2 & _).
    by rewrite Hp2, Hev2, Hp1, Hev1, (classify_frame st st1).
Qed.

Lemma late_callbacks_are_processed_witness :
  priv_allowed watching = true ∧ priv_watchID watching = Some 7 ∧
  priv_watchID (exec stopWatching watching) = None ∧
  events (exec (watchPosition_success 0 (Heap 1)) (exec stopWatching watching))
  = [{| ev_type := "coords"; ev_args := [VObj (Heap 0)] |}] ∧
  events (exec (watchPosition_fail 0 (Heap 3)) (exec (set_allowed false) watching))
  = [{| ev_type := "error"; ev_args := [VStr "timeout"; VNum 15000] |}].
Proof.
  split; [reflexivity|]. split; [reflexivity|].
  destruct (late_callbacks_are_processed false 7 0 (Heap 1) (Heap 3) watching
              eq_refl eq_refl) as ((Hw & _) & (Hnew & _) & _).
  destruct (late_callbacks_are_processed true 7 0 (Heap 1) (Heap 3) watching
              eq_refl eq_refl) as (_ & _ & _ & Herr).
  split; [exact Hw|].
  split; [|exact Herr].
  assert (priv_position watching ≠ Some (Heap 1)) as Hp by discriminate.
  exact (proj2 (Hnew Hp)).
Defined.

(** C1 (as stated) fails: on the sample instance that is watching under
    handle 7, after [stopWatching()] has cleared the handle, the [success]
    callback of that watch delivering object 1 emits a ["coords"]
    notification and replaces the cached sample. *)
Lemma late_callback_counterexample :
  let st1 := exec stopWatching watching in
  let st2 := exec (watchPosition_success 0 (Heap 1)) st1 in
  priv_allowed watching = true ∧ priv_watchID watching = Some 7 ∧
  priv_watchID st1 = None ∧
  events st1 = [] ∧ priv_position st1 = None ∧
  events st2 = [{| ev_type := "coords"; ev_args := [VObj (Heap 0)] |}] ∧
  priv_position st2 = Some (Heap 1) ∧
  ¬ (events st2 = events st1 ∧ priv_position st2 = priv_position st1).
Proof.
  cbn zeta. repeat split; try reflexivity.
  intros [H _]. vm_compute in H. discriminate H.
Qed.

(** ** The watch handle invariant *)

Lemma filter_other_singleton (id : nat) : filter (fun w => w ≠ id) [id] = [].
Proof. rewrite filter_cons. by case_decide. Qed.

Lemma registrations_snoc log c :
  registrations (log ++ [c]) =
  registrations log + registrations [c].
Proof.
  induction log as [|c' log IH]; [done|].
  cbn. rewrite IH. by destruct c'.
Qed.

Lemma initialize_inv v1 id h p : watch_inv (initialize v1 id h p).
Proof. done. Qed.

Lemma stopped_inv st : watch_inv st → watch_inv (stopped st).
Proof.
  unfold watch_inv, stopped.
  destruct (priv_watchID st) as [id|] eqn:Hw; intros Hi; [|by rewrite Hw].
  cbn. rewrite Hi. apply filter_other_singleton.
Qed.

Lemma set_allowed_inv allow st :
  watch_inv st → watch_inv (exec (set_allowed allow) st).
Proof.
  intros Hi. unfold exec. rewrite set_allowed_run. cbn.
  destruct allow; [done|]. by apply stopped_inv.
Qed.

Lemma getCurrentPosition_inv provider st :
  watch_inv st → watch_inv (exec (getCurrentPosition provider) st).
Proof.
  intros Hi. unfold exec. destruct (priv_allowed st) eqn:Ha.
  - by rewrite getCurrentPosition_allowed.
  - by rewrite getCurrentPosition_blocked.
Qed.

Lemma watchPosition_inv provider st :
  watch_inv st → watch_inv (exec (watchPosition provider) st).
Proof.
  intros Hi. unfold exec. destruct (priv_allowed st) eqn:Ha.
  - destruct (priv_watchID st) as [id|] eqn:Hw.
    + by rewrite (watchPosition_watching provider id).
    + unfold watch_inv in Hi. rewrite Hw in Hi.
      destruct provider as [id|x].
      * rewrite watchPosition_registers by done.
        unfold watch_inv. cbn. by rewrite Hi.
      * rewrite watchPosition_registration_throws by done.
        unfold watch_inv. cbn. by rewrite Hi, Hw.
  - rewrite watchPosition_blocked by done. by apply stopped_inv in Hi.
Qed.

Lemma unload_run reason st :
  unload reason st =
  (Normal tt,
   if String.eqb reason "disable" then exec (set_allowed false) (stopped st)
   else stopped st).
Proof.
  unfold unload. js_unfold. cbn -[stopWatching set_allowed].
  rewrite stopWatching_run.
  destruct (String.eqb reason "disable"); [|done].
  by rewrite set_allowed_run.
Qed.

(** Every operation preserves the invariant. *)
Lemma perform_inv a st : watch_inv st → watch_inv (perform a st).
Proof.
  intros Hi. destruct a as [allow|v|v|provider|provider| |reason|d p|d e|d p|d e|n o];
    cbn [perform]; try done.
  - by apply set_allowed_inv.
  - by apply getCurrentPosition_inv.
  - by apply watchPosition_inv.
  - unfold exec. rewrite stopWatching_run. by apply stopped_inv.
  - unfold exec. rewrite unload_run. cbn.
    destruct (String.eqb reason "disable").
    + by apply set_allowed_inv, stopped_inv.
    + by apply stopped_inv.
  - destruct (success_effect false d p st) as (_ & _ & _ & _ & _ & Hw & Hr).
    unfold watch_inv. by rewrite Hw, Hr.
  - destruct (fail_effect false d e st) as (_ & _ & Hw & Hr).
    unfold watch_inv. by rewrite Hw, Hr.
  - destruct (success_effect true d p st) as (_ & _ & _ & _ & _ & Hw & Hr).
    unfold watch_inv. by rewrite Hw, Hr.
  - destruct (fail_effect true d e st) as (_ & _ & Hw & Hr).
    unfold watch_inv. by rewrite Hw, Hr.
Qed.

Lemma reachable_inv st : reachable st → watch_inv st.
Proof.
  induction 1 as [v1 id h p|a st _ IH].
  - apply initialize_inv.
  - by apply perform_inv.
Qed.

(** C6. In every state an instance can reach, the handle is stored exactly
    when the geolocation service holds one watch, and the service never
    holds more than one; every operation keeps it so.  [watchPosition()]
    asks the service for a registration only when no handle is stored;
    [stopWatching()] and the revocation of the permission call
    [clearWatch] on the stored handle and then clear it, leaving the
    service without a watch; a registration that throws leaves the handle
    [null] and the service without a watch, and rejects the returned
    promise with what was thrown. *)
Theorem watch_handle_invariant (st : state) :
  reachable st →
  (priv_watchID st ≠ None ↔ length (registered st) = 1) ∧
  (length (registered st) ≤ 1)%nat ∧
  (∀ a, watch_inv (perform a st)) ∧
  (∀ provider,
     priv_watchID st ≠ None →
     registrations (provider_log (exec (watchPosition provider) st))
     = registrations (provider_log st)) ∧
  (∀ (revoke : bool) id,
     priv_watchID st = Some id →
     let st' := exec (if revoke then set_allowed false else stopWatching) st in
     provider_log st' = provider_log st ++ [Call_clearWatch id] ∧
     priv_watchID st' = None ∧
     registered st' = []) ∧
  (∀ x,
     priv_allowed st = true →
     priv_watchID st = None →
     let st' := exec (watchPosition (Throws x)) st in
     outcome (watchPosition (Throws x)) st = Normal (length (deferreds st)) ∧
     priv_watchID st' = None ∧
     registered st' = [] ∧
     deferreds st' = deferreds st ++ [Rejected x]).
Proof.
  intros Hr. pose proof (reachable_inv st Hr) as Hi.
  unfold watch_inv in Hi.
  split; [|split; [|split; [|split; [|split]]]].
  - rewrite Hi. destruct (priv_watchID st); cbn; split; (done || lia).
  - rewrite Hi. destruct (priv_watchID st); cbn; lia.
  - intros a. by apply perform_inv.
  - intros provider Hw. unfold exec.
    destruct (priv_watchID st) as [id|] eqn:Hid; [|done].
    destruct (priv_allowed st) eqn:Ha.
    + by rewrite (watchPosition_watching provider id).
    + rewrite watchPosition_blocked by done. unfold stopped. rewrite Hid. cbn.
      rewrite registrations_snoc. cbn. lia.
  - intros revoke id Hw. cbn zeta.
    destruct (stop_effect revoke id st Hw) as (Hw1 & Hl1 & Hr1 & _).
    rewrite Hw1, Hl1, Hr1, Hi, Hw. by rewrite filter_other_singleton.
  - intros x Ha Hw. cbn zeta. unfold exec, outcome.
    rewrite watchPosition_registration_throws by done. cbn.
    by rewrite Hi, Hw.
Qed.

Lemma watch_handle_invariant_witness :
  reachable watching ∧
  priv_watchID watching = Some 7 ∧
  length (registered watching) = 1 ∧
  registered (exec stopWatching watching) = [] ∧
  priv_watchID (exec (watchPosition (Throws (VStr "NS_ERROR_FAILURE"))) permitted)
  = None.
Proof.
  assert (reachable permitted) as Hp by (do 2 constructor).
  assert (reachable watching) as Hr by (by constructor).
  split; [exact Hr|]. split; [reflexivity|].
  destruct (watch_handle_invariant watching Hr) as (Hiff & _ & _ & _ & Hstop & _).
  destruct (watch_handle_invariant permitted Hp) as (_ & _ & _ & _ & _ & Hthrow).
  split; [apply Hiff; discriminate|].
  split.
  - exact (proj2 (proj2 (Hstop false 7 eq_refl))).
  - exact (proj1 (proj2 (Hthrow (VStr "NS_ERROR_FAILURE") eq_refl eq_refl))).
Defined.

(** * Further properties of the module *)

(** ** Construction and the persisted permission *)

Lemma ALLOW_GEOLOCATION_PREF_not_compat id :
  compatibility_value (join "." ["extensions"; id; "allowGeolocation"]) = None.
Proof.
  unfold compatibility_value. cbn [GEO_API_V1_VALUES list_to_map foldr].
  cbn [join]. rewrite !lookup_insert_ne, lookup_empty; [done|cbn; discriminate..].
Qed.

(** The preferences a new instance leaves behind, key by key. *)
Lemma initialize_prefs_lookup v1 id h p key :
  prefs (initialize v1 id h p) !! key =
  match p !! key with
  | Some v => Some v
  | None => if v1 then compatibility_value key else None
  end.
Proof.
  unfold initialize, compatibility_value. cbn.
  destruct v1; cbn; [|by destruct (p !! key)].
  repeat case_bool_decide;
    repeat match goal with
           | H : is_Some _ |- _ => destruct H as [? H]
           | H : ¬ is_Some _ |- _ => apply eq_None_not_Some in H
           end;
    destruct (decide (key = "geo.wifi.protocol")) as [Hk1|Hk1];
    destruct (decide (key = "geo.wifi.uri")) as [Hk2|Hk2];
    simplify_map_eq; try done.
  all: by destruct (p !! key).
Qed.

(** X1. A new instance whose preference store has no entry under its key is
    not allowed; whatever the store holds, it starts without a handle,
    without a cached sample, with the default options, and without having
    called the service or emitted anything. *)
Theorem initialize_defaults v1 id h p :
  let st := initialize v1 id h p in
  (p !! join "." ["extensions"; id; "allowGeolocation"] = None →
   outcome allowed st = Normal false) ∧
  outcome isWatching st = Normal false ∧
  outcome position st = Normal VNull ∧
  outcome enableHighAccuracy st = Normal (VBool false) ∧
  outcome timeout st = Normal (VNum 15000) ∧
  provider_log st = [] ∧ events st = [].
Proof.
  cbn zeta. split; [|done].
  intros Hp. unfold outcome, allowed. js_unfold. cbn [fst].
  change (priv_allowed (initialize v1 id h p)) with
    (PrefSvc_get_bool (join "." ["extensions"; id; "allowGeolocation"])
       (prefs (initialize v1 id h p))).
  unfold PrefSvc_get_bool.
  rewrite initialize_prefs_lookup, Hp, ALLOW_GEOLOCATION_PREF_not_compat.
  by destruct v1.
Qed.

Lemma initialize_defaults_witness :
  outcome allowed (initialize true "jid1-geolocation" sample_heap ∅)
  = Normal false.
Proof.
  exact (proj1 (initialize_defaults true "jid1-geolocation" sample_heap ∅) eq_refl).
Defined.

(** X2. The permission survives a restart: an instance built on the
    preferences an earlier instance of the same package left after
    [allowed = b] starts with [allowed] equal to [b], on either host
    revision. *)
Theorem allowed_survives_restart (b v1 : bool) h (st : state) :
  priv_allowed
    (initialize v1 (self_id st) h (prefs (exec (set_allowed b) st))) = b.
Proof.
  change (priv_allowed (initialize v1 (self_id st) h (prefs (exec (set_allowed b) st))))
    with (PrefSvc_get_bool (ALLOW_GEOLOCATION_PREF st)
            (prefs (initialize v1 (self_id st) h (prefs (exec (set_allowed b) st))))).
  unfold PrefSvc_get_bool. rewrite initialize_prefs_lookup.
  assert (prefs (exec (set_allowed b) st) !! ALLOW_GEOLOCATION_PREF st
          = Some (PBool b)) as ->; [|done].
  unfold exec. rewrite set_allowed_run. cbn.
  destruct b; unfold stopped; cbn; destruct (priv_watchID st); cbn;
    apply lookup_insert_eq.
Qed.

(** X3. Construction on a legacy host gives each key of
    [GEO_API_V1_VALUES] its compatibility value only where the store has no
    entry for it; an entry that exists is never overwritten, keys outside
    the table are left alone, and on a modern host the store is not touched
    at all. *)
Theorem initialize_compatibility_prefs v1 id h p :
  (∀ key v, p !! key = Some v → prefs (initialize v1 id h p) !! key = Some v) ∧
  (∀ key,
     p !! key = None →
     prefs (initialize v1 id h p) !! key =
     if v1 then compatibility_value key else None) ∧
  (v1 = false → prefs (initialize v1 id h p) = p) ∧
  compatibility_value "geo.wifi.protocol" = Some (PInt 0) ∧
  compatibility_value "geo.wifi.uri"
  = Some (PStr "https://www.google.com/loc/json") ∧
  (∀ key, key ≠ "geo.wifi.protocol" → key ≠ "geo.wifi.uri" →
          compatibility_value key = None).
Proof.
  split; [|split; [|split; [|split; [|split]]]].
  - intros key v Hk. by rewrite initialize_prefs_lookup, Hk.
  - intros key Hk. by rewrite initialize_prefs_lookup, Hk.
  - by intros ->.
  - done.
  - done.
  - intros key H1 H2. unfold compatibility_value.
    cbn [GEO_API_V1_VALUES list_to_map foldr].
    by rewrite !lookup_insert_ne, lookup_empty.
Qed.

Lemma initialize_compatibility_prefs_witness :
  prefs (initialize true "jid1-geolocation" sample_heap
           {["geo.wifi.uri" := PStr "https://example.org/loc"]})
  !! "geo.wifi.uri" = Some (PStr "https://example.org/loc") ∧
  prefs (initialize true "jid1-geolocation" sample_heap
           {["geo.wifi.uri" := PStr "https://example.org/loc"]})
  !! "geo.wifi.protocol" = Some (PInt 0) ∧
  prefs (initialize false "jid1-geolocation" sample_heap ∅) = ∅.
Proof.
  destruct (initialize_compatibility_prefs true "jid1-geolocation" sample_heap
              {["geo.wifi.uri" := PStr "https://example.org/loc"]})
    as (Hkeep & Hfill & _).
  destruct (initialize_compatibility_prefs false "jid1-geolocation" sample_heap ∅)
    as (_ & _ & Hmodern & _).
  split; [exact (Hkeep "geo.wifi.uri" (PStr "https://example.org/loc") eq_refl)|].
  split; [exact (Hfill "geo.wifi.protocol" eq_refl) | exact (Hmodern eq_refl)].
Defined.

(** ** Case analysis on an operation *)

(** Rewrites [perform a st] into the explicit state each path of [a]
    leaves; the two kinds of callback are left as a promise being settled
    on top of the state [_setposition] or [_onerror] leaves. *)
Ltac perform_cases a st :=
  let allow := fresh "allow" in
  let provider := fresh "provider" in
  let reason := fresh "reason" in
  let d := fresh "d" in
  let r := fresh "r" in
  let l := fresh "l" in
  destruct a as [allow|?v|?v|provider|provider| |reason|d r|d r|d r|d r|?n ?o];
  cbn [perform]; unfold exec;
  [ rewrite set_allowed_run; destruct allow
  | unfold set_enableHighAccuracy, modify
  | unfold set_timeout, modify
  | destruct (priv_allowed st) eqn:?Ha;
    [ rewrite getCurrentPosition_allowed by done
    | rewrite getCurrentPosition_blocked by done ]
  | destruct (priv_allowed st) eqn:?Ha;
    [ destruct (priv_watchID st) as [?id|] eqn:?Hw;
      [ rewrite (watchPosition_watching provider _ st Ha Hw)
      | destruct provider as [?id|?x];
        [ rewrite watchPosition_registers by done
        | rewrite watchPosition_registration_throws by done ] ]
    | rewrite watchPosition_blocked by done ]
  | rewrite stopWatching_run
  | rewrite unload_run; destruct (String.eqb reason "disable");
    [ unfold exec; rewrite set_allowed_run | ]
  | rewrite (success_run false);
    destruct (settle_run d (Resolved (VObj r)) (exec (_setposition r) st)) as [l ->];
    unfold exec;
    destruct (decide (priv_position st = Some r)) as [?Hp|?Hp];
    [ rewrite (_setposition_same _ _ Hp) | rewrite (_setposition_new _ _ Hp) ]
  | rewrite (fail_run false);
    destruct (settle_run d (Rejected (VObj r)) (exec (_onerror r) st)) as [l ->];
    unfold exec; rewrite _onerror_run
  | rewrite (success_run true);
    destruct (settle_run d (Resolved (VObj r)) (exec (_setposition r) st)) as [l ->];
    unfold exec;
    destruct (decide (priv_position st = Some r)) as [?Hp|?Hp];
    [ rewrite (_setposition_same _ _ Hp) | rewrite (_setposition_new _ _ Hp) ]
  | rewrite (fail_run true);
    destruct (settle_run d (Rejected (VObj r)) (exec (_onerror r) st)) as [l ->];
    unfold exec; rewrite _onerror_run
  | ];
  unfold stopped; cbn;
  repeat match goal with
         | |- context [match priv_watchID st with _ => _ end] =>
             destruct (priv_watchID st) eqn:?Hw
         | |- context [if GEO_API_V1 st then _ else _] =>
             destruct (GEO_API_V1 st) eqn:?Hv
         | |- context [match classify st ?e with _ => _ end] =>
             destruct (classify st e) eqn:?Hc
         end;
  cbn.

Lemma perform_gate_inv a st : gate_inv st → gate_inv (perform a st).
Proof.
  unfold gate_inv. perform_cases a st; intros Hi Hf;
    rewrite ?Hw in *; try done; try (by apply Hi); congruence.
Qed.

Lemma perform_persisted_inv a st : persisted_inv st → persisted_inv (perform a st).
Proof.
  unfold persisted_inv, PrefSvc_get_bool, ALLOW_GEOLOCATION_PREF.
  perform_cases a st; intros Hi; rewrite ?lookup_insert_eq; try done;
    congruence.
Qed.

Lemma perform_events_of_host a st :
  Forall (event_of_host (GEO_API_V1 st)) (events st) →
  GEO_API_V1 (perform a st) = GEO_API_V1 st ∧
  Forall (event_of_host (GEO_API_V1 st)) (events (perform a st)).
Proof.
  perform_cases a st; intros Hi; (split; [done|]); try done;
    unfold notifications;
    repeat match goal with H : GEO_API_V1 st = _ |- _ => rewrite H end;
    rewrite Forall_app; (split; [done|]);
    repeat first [apply Forall_nil_2 | apply Forall_cons_2];
    unfold event_of_host; cbn; auto.
Qed.


Lemma perform_sample_frame a st :
  (delivers_sample a = false → priv_position (perform a st) = priv_position st) ∧
  (allocates a = false → heap (perform a st) = heap st).
Proof. perform_cases a st; split; intros; done. Qed.

(** ** Reading the cached sample *)

Lemma position_outcome st :
  outcome position st = Normal (of_nullable (priv_position st)).
Proof. done. Qed.

Lemma timestamp_outcome st :
  outcome timestamp st =
  Normal match priv_position st with
         | Some pos => prop st pos "timestamp"
         | None => VNull
         end.
Proof.
  unfold outcome, timestamp, position, get_prop, prop. js_unfold. cbn.
  destruct (priv_position st) eqn:Hp; cbn; by rewrite ?Hp.
Qed.

Lemma coords_run st :
  coords st =
  (Normal match priv_position st with
          | Some pos => prop st pos "coords"
          | None => VNull
          end, st).
Proof.
  unfold coords, position, get_prop, prop. js_unfold. cbn.
  destruct (priv_position st) eqn:Hp; cbn; by rewrite ?Hp.
Qed.

Lemma coords_field_outcome field fallback st :
  outcome (coords_field field fallback) st =
  Normal match priv_position st with
         | Some pos => coords_field_of st pos field fallback
         | None => fallback
         end.
Proof.
  unfold outcome, coords_field, coords_field_of. js_unfold.
  rewrite coords_run. destruct (priv_position st) as [pos|] eqn:Hp; [|done].
  destruct (truthy (prop st pos "coords")) eqn:Ht; rewrite ?coords_run, ?Hp;
    [|done].
  unfold get_prop, prop in *. by destruct (default _ _).
Qed.

Lemma address_outcome st :
  outcome address st =
  match priv_position st with
  | Some pos => Normal (address_of st pos)
  | None => Throw (VObj TypeError_ref)
  end.
Proof.
  unfold outcome, address, address_of, position, get_prop, prop. js_unfold. cbn.
  destruct (priv_position st) as [pos|] eqn:Hp; [|done]. cbn.
  destruct (truthy _); cbn; by rewrite ?Hp.
Qed.

(** A getter sees the instance only through the cached reference and the
    objects. *)
Lemma sample_getter_frame g st st' :
  g ∈ sample_getters →
  priv_position st' = priv_position st →
  heap st' = heap st →
  outcome g st' = outcome g st.
Proof.
  intros Hg Hp Hh. unfold sample_getters in Hg.
  assert (∀ r name, prop st' r name = prop st r name) as Hprop
    by (intros; by apply prop_frame).
  assert (∀ pos f fb, coords_field_of st' pos f fb = coords_field_of st pos f fb)
    as Hcf.
  { intros. unfold coords_field_of. rewrite !Hprop.
    destruct (prop st pos "coords"); by rewrite ?Hprop. }
  repeat (apply elem_of_cons in Hg as [->|Hg]);
    [..|by apply elem_of_nil in Hg];
    unfold latitude, longitude, accuracy, altitude, altitudeAccuracy, heading,
      speed;
    rewrite ?position_outcome, ?timestamp_outcome, ?coords_field_outcome,
      ?address_outcome, ?Hp; unfold outcome; rewrite ?coords_run, ?Hp;
    unfold address_of; destruct (priv_position st); by rewrite ?Hprop, ?Hcf.
Qed.

(** X4. With a cached sample no getter throws.  [position] is the sample,
    [timestamp] and [coords] are its properties of that name, [address] is
    its [address] property when that is truthy and [null] otherwise, on
    either host revision; each coordinate helper is the field of the
    sample's [coords], and its fallback (the empty string for [latitude]
    and [longitude], [null] for the others) when the sample has no truthy
    [coords]. *)
Theorem getters_with_sample (pos : ref) (st : state) :
  priv_position st = Some pos →
  outcome position st = Normal (VObj pos) ∧
  outcome timestamp st = Normal (prop st pos "timestamp") ∧
  outcome coords st = Normal (prop st pos "coords") ∧
  outcome latitude st = Normal (coords_field_of st pos "latitude" (VStr "")) ∧
  outcome longitude st = Normal (coords_field_of st pos "longitude" (VStr "")) ∧
  outcome accuracy st = Normal (coords_field_of st pos "accuracy" VNull) ∧
  outcome altitude st = Normal (coords_field_of st pos "altitude" VNull) ∧
  outcome altitudeAccuracy st
  = Normal (coords_field_of st pos "altitudeAccuracy" VNull) ∧
  outcome heading st = Normal (coords_field_of st pos "heading" VNull) ∧
  outcome speed st = Normal (coords_field_of st pos "speed" VNull) ∧
  outcome address st = Normal (address_of st pos) ∧
  (∀ c field fallback,
     prop st pos "coords" = VObj c →
     coords_field_of st pos field fallback = prop st c field) ∧
  (∀ field fallback,
     truthy (prop st pos "coords") = false →
     coords_field_of st pos field fallback = fallback).
Proof.
  intros Hp.
  unfold latitude, longitude, accuracy, altitude, altitudeAccuracy, heading, speed.
  rewrite position_outcome, timestamp_outcome, !coords_field_outcome,
    address_outcome, Hp.
  unfold outcome at 1. rewrite coords_run, Hp.
  repeat (split; [done|]). split.
  - intros c field fallback Hc. unfold coords_field_of. by rewrite Hc.
  - intros field fallback Ht. unfold coords_field_of. by rewrite Ht.
Qed.

Lemma getters_with_sample_witness :
  priv_position located = Some (Heap 1) ∧
  outcome latitude located = Normal (VNum 10) ∧
  outcome address located = Normal VNull.
Proof.
  split; [reflexivity|].
  destruct (getters_with_sample (Heap 1) located eq_refl)
    as (_ & _ & _ & Hlat & _ & _ & _ & _ & _ & _ & Haddr & _).
  split; [exact Hlat | exact Haddr].
Defined.

(** X5. Only a delivered sample changes what the getters return: after any
    other operation or callback (a revocation of the permission, a stop, an
    unload, a failure, a new request) every getter of the cached sample
    completes as it did before, as long as no collaborator changed an
    object in between.  In particular revoking the permission does not
    clear the cached sample. *)
Theorem getters_change_only_on_sample (a : action) (g : JS jsval) (st : state) :
  delivers_sample a = false →
  allocates a = false →
  g ∈ sample_getters →
  outcome g (perform a st) = outcome g st.
Proof.
  intros Hd Ha Hg. destruct (perform_sample_frame a st) as [Hp Hh].
  apply sample_getter_frame; auto.
Qed.

Lemma getters_change_only_on_sample_witness :
  outcome latitude (perform (Assign_allowed false) located) = Normal (VNum 10).
Proof.
  assert (latitude ∈ sample_getters) as Hg
    by (unfold sample_getters; do 3 apply list_elem_of_further;
        apply list_elem_of_here).
  exact (getters_change_only_on_sample (Assign_allowed false) latitude located
           eq_refl eq_refl Hg).
Defined.

(** ** Invariants of reachable states *)

Lemma reachable_gate_inv st : reachable st → gate_inv st.
Proof.
  induction 1 as [v1 id h p|a st _ IH]; [done|]. by apply perform_gate_inv.
Qed.

(** X6. No watch without permission: in every reachable state in which
    [allowed] is false no handle is stored and the service holds no watch,
    so a call of [watchPosition()] or [getCurrentPosition()] in such a
    state makes no call on the service at all. *)
Theorem no_watch_without_permission (st : state) :
  reachable st →
  priv_allowed st = false →
  priv_watchID st = None ∧
  registered st = [] ∧
  outcome isWatching st = Normal false ∧
  (∀ provider, provider_log (exec (watchPosition provider) st) = provider_log st) ∧
  (∀ provider, provider_log (exec (getCurrentPosition provider) st) = provider_log st).
Proof.
  intros Hr Ha.
  pose proof (reachable_gate_inv st Hr Ha) as Hw.
  pose proof (reachable_inv st Hr) as Hi. unfold watch_inv in Hi.
  rewrite Hw in Hi.
  split; [done|]. split; [done|]. split.
  { unfold outcome, isWatching. js_unfold. cbn. by rewrite Hw. }
  split; intros provider; unfold exec.
  - rewrite watchPosition_blocked by done. unfold stopped. by rewrite Hw.
  - by rewrite getCurrentPosition_blocked.
Qed.

Lemma no_watch_without_permission_witness :
  reachable (perform (Assign_allowed false) watching) ∧
  priv_watchID (perform (Assign_allowed false) watching) = None ∧
  registered (perform (Assign_allowed false) watching) = [].
Proof.
  assert (reachable (perform (Assign_allowed false) watching)) as Hr
    by (do 4 constructor).
  split; [exact Hr|].
  destruct (no_watch_without_permission _ Hr eq_refl) as (Hw & Hreg & _).
  split; [exact Hw | exact Hreg].
Defined.

Lemma reachable_persisted_inv st : reachable st → persisted_inv st.
Proof.
  induction 1 as [v1 id h p|a st _ IH]; [done|]. by apply perform_persisted_inv.
Qed.

(** X7. The flag and the preference never drift apart: in every reachable
    state the [allowed] getter returns what the preference service holds
    under [ALLOW_GEOLOCATION_PREF], and no operation changes that key. *)
Theorem allowed_agrees_with_preference (st : state) :
  reachable st →
  outcome allowed st =
  Normal (PrefSvc_get_bool (ALLOW_GEOLOCATION_PREF st) (prefs st)) ∧
  ∀ a, ALLOW_GEOLOCATION_PREF (perform a st) = ALLOW_GEOLOCATION_PREF st.
Proof.
  intros Hr. split.
  - unfold outcome, allowed. js_unfold. cbn.
    f_equal. by apply reachable_persisted_inv.
  - intros a. unfold ALLOW_GEOLOCATION_PREF. by perform_cases a st.
Qed.

Lemma allowed_agrees_with_preference_witness :
  reachable permitted ∧
  outcome allowed permitted = Normal true ∧
  prefs permitted !! "extensions.jid1-geolocation.allowGeolocation"
  = Some (PBool true).
Proof.
  assert (reachable permitted) as Hr by (do 2 constructor).
  split; [exact Hr|].
  split; [|reflexivity].
  exact (proj1 (allowed_agrees_with_preference permitted Hr)).
Defined.

Lemma reachable_events_of_host st :
  reachable st → Forall (event_of_host (GEO_API_V1 st)) (events st).
Proof.
  induction 1 as [v1 id h p|a st _ IH]; [by constructor|].
  destruct (perform_events_of_host a st IH) as [Hv Hev]. by rewrite Hv.
Qed.

(** X8. The channel carries three kinds of notification only, ["coords"],
    ["address"] and ["error"], and on a modern host never an ["address"]:
    this holds of everything emitted in any reachable state.  The host
    revision itself is fixed for the life of the instance. *)
Theorem modern_host_never_emits_address (st : state) :
  reachable st →
  (∀ ev, ev ∈ events st →
         ev_type ev = "coords" ∨ ev_type ev = "address" ∨ ev_type ev = "error") ∧
  (GEO_API_V1 st = false → ∀ ev, ev ∈ events st → ev_type ev ≠ "address") ∧
  (∀ a, GEO_API_V1 (perform a st) = GEO_API_V1 st).
Proof.
  intros Hr. pose proof (reachable_events_of_host st Hr) as Hev.
  rewrite Forall_forall in Hev. split; [|split].
  - intros ev Hin. destruct (Hev ev Hin) as [H|[H|[H _]]]; auto.
  - intros Hv ev Hin. destruct (Hev ev Hin) as [H|[H|[_ H]]];
      rewrite ?H; try discriminate. congruence.
  - intros a. by perform_cases a st.
Qed.

Lemma modern_host_never_emits_address_witness :
  reachable located ∧ GEO_API_V1 located = false ∧
  events located = [{| ev_type := "coords"; ev_args := [VObj (Heap 0)] |}] ∧
  ∀ ev, ev ∈ events located → ev_type ev ≠ "address".
Proof.
  assert (reachable located) as Hr by (do 4 constructor).
  split; [exact Hr|]. split; [reflexivity|]. split; [reflexivity|].
  destruct (modern_host_never_emits_address located Hr) as (_ & Hno & _).
  exact (Hno eq_refl).
Defined.

(** ** History *)

Lemma settle_stable d p st d' q :
  deferreds st !! d' = Some q →
  q ≠ Pending →
  deferreds (exec (settle d p) st) !! d' = Some q.
Proof.
  intros Hq Hne. unfold exec, settle, modify. cbn.
  destruct (deferreds st !! d) as [[| |]|] eqn:Hd; cbn; try done.
  destruct (decide (d = d')) as [->|Hdd]; [congruence|].
  by rewrite list_lookup_insert_ne.
Qed.


Lemma _setposition_deferreds pos st :
  deferreds (exec (_setposition pos) st) = deferreds st.
Proof.
  unfold exec. destruct (decide (priv_position st = Some pos)) as [Hp|Hp].
  - by rewrite (_setposition_same _ _ Hp).
  - rewrite (_setposition_new _ _ Hp). by destruct (GEO_API_V1 st).
Qed.

Lemma _onerror_deferreds e st :
  deferreds (exec (_onerror e) st) = deferreds st.
Proof. unfold exec. rewrite _onerror_run. by destruct (classify st e). Qed.

Lemma fail_exec (watch : bool) d e st :
  exec ((if watch then watchPosition_fail else getCurrentPosition_fail) d e) st
  = exec (settle d (Rejected (VObj e))) (exec (_onerror e) st).
Proof. unfold exec at 1 2. by rewrite fail_run. Qed.

Lemma success_exec (watch : bool) d pos st :
  exec ((if watch then watchPosition_success else getCurrentPosition_success)
          d pos) st
  = exec (settle d (Resolved (VObj pos))) (exec (_setposition pos) st).
Proof. unfold exec at 1 2. by rewrite success_run. Qed.




(** ** Configuration *)

(** X10. The two options are stored as given, without validation, and
    independently of each other; writing one makes no call on the service
    and emits nothing.  The next [getCurrentPosition()] or registering
    [watchPosition()] hands the service the options as they are at that
    moment. *)
Theorem options_take_effect_on_next_call (t hi : jsval) (st : state) :
  let st1 := exec (set_timeout t) st in
  let st2 := exec (set_enableHighAccuracy hi) st in
  (outcome timeout st1 = Normal t ∧
   outcome enableHighAccuracy st1 = outcome enableHighAccuracy st ∧
   provider_log st1 = provider_log st ∧ events st1 = events st) ∧
  (outcome enableHighAccuracy st2 = Normal hi ∧
   outcome timeout st2 = outcome timeout st ∧
   provider_log st2 = provider_log st ∧ events st2 = events st) ∧
  (priv_allowed st = true →
   ∀ provider,
     provider_log (exec (getCurrentPosition provider) (exec (set_enableHighAccuracy hi) st1))
     = provider_log st ++
       [Call_getCurrentPosition (length (deferreds st))
          {| opt_enableHighAccuracy := hi; opt_timeout := t |}]) ∧
  (priv_allowed st = true →
   priv_watchID st = None →
   ∀ provider,
     provider_log (exec (watchPosition provider) (exec (set_enableHighAccuracy hi) st1))
     = provider_log st ++
       [Call_watchPosition (length (deferreds st))
          {| opt_enableHighAccuracy := hi; opt_timeout := t |}]).
Proof.
  cbn zeta. split; [done|]. split; [done|]. split.
  - intros Ha provider. unfold exec at 1. by rewrite getCurrentPosition_allowed.
  - intros Ha Hw provider. unfold exec at 1. destruct provider as [id|x].
    + by rewrite watchPosition_registers.
    + by rewrite watchPosition_registration_throws.
Qed.

Lemma options_take_effect_on_next_call_witness :
  priv_allowed permitted = true ∧ priv_watchID permitted = None ∧
  provider_log
    (exec (watchPosition (Returns 7))
       (exec (set_enableHighAccuracy (VBool true))
          (exec (set_timeout (VNum 500)) permitted)))
  = [Call_watchPosition 0
       {| opt_enableHighAccuracy := VBool true; opt_timeout := VNum 500 |}] ∧
  provider_log
    (exec (getCurrentPosition (Returns tt))
       (exec (set_enableHighAccuracy (VBool true))
          (exec (set_timeout (VNum 500)) permitted)))
  = [Call_getCurrentPosition 0
       {| opt_enableHighAccuracy := VBool true; opt_timeout := VNum 500 |}].
Proof.
  split; [reflexivity|]. split; [reflexivity|].
  destruct (options_take_effect_on_next_call (VNum 500) (VBool true) permitted)
    as (_ & _ & Hg & Hw).
  split; [exact (Hw eq_refl eq_refl (Returns 7)) | exact (Hg eq_refl (Returns tt))].
Defined.

(** ** Classification of failures *)

(** X11. A failure is classified by comparing its [code] with the constants
    the error object itself carries, in the order [PERMISSION_DENIED],
    [POSITION_UNAVAILABLE], [TIMEOUT]; the first that is strictly equal
    decides, and exactly one ["error"] notification is emitted.  A timeout
    carries the timeout configured when the callback runs, even if it was
    changed after the request was made.  The cache, the handle and the
    permission are not touched. *)
Theorem error_classification (watch : bool) (d : nat) (e : ref) (t : jsval) (st : state) :
  let fail := if watch then watchPosition_fail else getCurrentPosition_fail in
  let error args := {| ev_type := "error"; ev_args := args |} in
  (strict_eq (prop st e "code") (prop st e "PERMISSION_DENIED") = true →
   events (exec (fail d e) st) = events st ++ [error [VStr "permission-denied"]]) ∧
  (strict_eq (prop st e "code") (prop st e "PERMISSION_DENIED") = false →
   strict_eq (prop st e "code") (prop st e "POSITION_UNAVAILABLE") = true →
   events (exec (fail d e) st) = events st ++ [error [VStr "position-unavailable"]]) ∧
  (strict_eq (prop st e "code") (prop st e "PERMISSION_DENIED") = false →
   strict_eq (prop st e "code") (prop st e "POSITION_UNAVAILABLE") = false →
   strict_eq (prop st e "code") (prop st e "TIMEOUT") = true →
   events (exec (fail d e) (exec (set_timeout t) st))
   = events st ++ [error [VStr "timeout"; t]]) ∧
  priv_position (exec (fail d e) st) = priv_position st ∧
  priv_watchID (exec (fail d e) st) = priv_watchID st ∧
  registered (exec (fail d e) st) = registered st.
Proof.
  cbn zeta.
  destruct (fail_effect watch d e st) as (Hp & Hev & Hw & Hr).
  split; [|split; [|split]]; [| | |done].
  - intros H1. rewrite Hev. unfold classify. by rewrite H1.
  - intros H1 H2. rewrite Hev. unfold classify. by rewrite H1, H2.
  - intros H1 H2 H3.
    destruct (fail_effect watch d e (exec (set_timeout t) st)) as (_ & Hev' & _).
    rewrite Hev'. unfold classify.
    rewrite !(prop_frame st (exec (set_timeout t) st)) by done.
    by rewrite H1, H2, H3.
Qed.

Lemma error_classification_witness :
  events (exec (getCurrentPosition_fail 0 (Heap 3))
            (exec (set_timeout (VNum 500)) requested))
  = [{| ev_type := "error"; ev_args := [VStr "timeout"; VNum 500] |}].
Proof.
  destruct (error_classification false 0 (Heap 3) (VNum 500) requested)
    as (_ & _ & Ht & _).
  exact (Ht eq_refl eq_refl eq_refl).
Defined.

(** X12. An error object that has neither a [code] nor a
    [PERMISSION_DENIED] property is notified as ["permission-denied"]:
    both reads give [undefined], and [undefined === undefined] holds. *)
Theorem error_without_code_is_permission_denied
    (watch : bool) (d : nat) (e : ref) (st : state) :
  let fail := if watch then watchPosition_fail else getCurrentPosition_fail in
  object_at st e !! "code" = None →
  object_at st e !! "PERMISSION_DENIED" = None →
  events (exec (fail d e) st)
  = events st ++ [{| ev_type := "error"; ev_args := [VStr "permission-denied"] |}].
Proof.
  cbn zeta. intros Hc Hd.
  destruct (fail_effect watch d e st) as (_ & Hev & _).
  rewrite Hev. unfold classify, prop. by rewrite Hc, Hd.
Qed.

Lemma error_without_code_is_permission_denied_witness :
  heap (perform (Allocate 9 ∅) watching) !! 9 = Some ∅ ∧
  events (exec (watchPosition_fail 0 (Heap 9)) (perform (Allocate 9 ∅) watching))
  = [{| ev_type := "error"; ev_args := [VStr "permission-denied"] |}].
Proof.
  split; [reflexivity|].
  exact (error_without_code_is_permission_denied true 0 (Heap 9)
           (perform (Allocate 9 ∅) watching) eq_refl eq_refl).
Defined.

(** ** Stopping and unloading *)

(** X13. [stopWatching()] is idempotent and never throws: without a stored
    handle it changes nothing and makes no call on the service, and a
    second call right after a first changes nothing more.  It leaves the
    permission, the preferences, the cached sample and the channel alone. *)
Theorem stopWatching_idempotent (st : state) :
  let st' := exec stopWatching st in
  outcome stopWatching st = Normal tt ∧
  outcome isWatching st' = Normal false ∧
  (priv_watchID st = None → st' = st) ∧
  exec stopWatching st' = st' ∧
  priv_allowed st' = priv_allowed st ∧ prefs st' = prefs st ∧
  priv_position st' = priv_position st ∧ events st' = events st.
Proof.
  cbn zeta. unfold exec, outcome. rewrite !stopWatching_run. cbn.
  unfold stopped, isWatching. js_unfold.
  destruct (priv_watchID st) as [id|] eqn:Hw; cbn; rewrite ?Hw;
    repeat split; done.
Qed.

Lemma stopWatching_idempotent_witness :
  priv_watchID permitted = None ∧ exec stopWatching permitted = permitted.
Proof.
  split; [reflexivity|].
  destruct (stopWatching_idempotent permitted) as (_ & _ & H & _).
  exact (H eq_refl).
Defined.

(** X14. [unload] always completes and leaves no handle stored.  With the
    reason ["disable"] it also sets [allowed] to false and writes false
    under [ALLOW_GEOLOCATION_PREF]; with any other reason the permission
    and the preferences stay as they were.  Either way the cached sample
    stays, and nothing is emitted. *)
Theorem unload_effect (reason : string) (st : state) :
  let st' := exec (unload reason) st in
  outcome (unload reason) st = Normal tt ∧
  outcome isWatching st' = Normal false ∧
  (reason = "disable" →
   priv_allowed st' = false ∧
   prefs st' = <[ALLOW_GEOLOCATION_PREF st := PBool false]> (prefs st)) ∧
  (reason ≠ "disable" →
   priv_allowed st' = priv_allowed st ∧ prefs st' = prefs st) ∧
  priv_position st' = priv_position st ∧ events st' = events st ∧
  (∀ id, priv_watchID st = Some id →
         provider_log st' = provider_log st ++ [Call_clearWatch id]).
Proof.
  cbn zeta. unfold exec, outcome. rewrite unload_run. cbn.
  destruct (String.eqb_spec reason "disable") as [->|Hne].
  - unfold exec. rewrite set_allowed_run. unfold stopped, isWatching. js_unfold.
    cbn. destruct (priv_watchID st) as [w|] eqn:Hw; cbn; rewrite ?Hw;
      repeat split; try done; intros id [= ->]; done.
  - unfold stopped, isWatching. js_unfold.
    destruct (priv_watchID st) as [w|] eqn:Hw; cbn; rewrite ?Hw;
      repeat split; try done; intros id [= ->]; done.
Qed.

Lemma unload_effect_witness :
  priv_allowed (exec (unload "disable") watching) = false ∧
  priv_allowed (exec (unload "shutdown") watching) = true ∧
  provider_log (exec (unload "shutdown") watching)
  = provider_log watching ++ [Call_clearWatch 7].
Proof.
  destruct (unload_effect "disable" watching) as (_ & _ & Hd & _).
  destruct (unload_effect "shutdown" watching) as (_ & _ & _ & Hs & _ & _ & Hl).
  assert ("shutdown" ≠ "disable") as Hne by discriminate.
  split; [exact (proj1 (Hd eq_refl))|].
  split; [exact (proj1 (Hs Hne)) | exact (Hl 7 eq_refl)].
Defined.

(** ** A request from call to answer *)

(** X15. A one-shot request end to end.  While [allowed] is true and the
    service accepts the call, [getCurrentPosition()] returns a fresh
    pending promise, emits nothing and leaves the watch as it is.  When the
    service later answers with a sample, the promise is resolved with it
    and [position] reads it back; when it answers with a failure, the
    promise is rejected with the error object and the cached sample stays.
    Neither answer touches the watch. *)
Theorem one_shot_round_trip (pos e : ref) (st : state) :
  priv_allowed st = true →
  let d := length (deferreds st) in
  let st1 := exec (getCurrentPosition (Returns tt)) st in
  (outcome (getCurrentPosition (Returns tt)) st = Normal d ∧
   deferreds st1 = deferreds st ++ [Pending] ∧
   events st1 = events st ∧ priv_position st1 = priv_position st ∧
   priv_watchID st1 = priv_watchID st ∧ registered st1 = registered st) ∧
  (let st2 := exec (getCurrentPosition_success d pos) st1 in
   deferreds st2 !! d = Some (Resolved (VObj pos)) ∧
   outcome position st2 = Normal (VObj pos) ∧
   priv_watchID st2 = priv_watchID st ∧ registered st2 = registered st) ∧
  (let st2 := exec (getCurrentPosition_fail d e) st1 in
   deferreds st2 !! d = Some (Rejected (VObj e)) ∧
   priv_position st2 = priv_position st ∧
   priv_watchID st2 = priv_watchID st ∧ registered st2 = registered st).
Proof.
  intros Ha. cbn zeta.
  assert (exec (getCurrentPosition (Returns tt)) st =
          set_provider_log
            (provider_log st ++
             [Call_getCurrentPosition (length (deferreds st)) (priv_options st)])
            (set_deferreds (deferreds st ++ [Pending]) st)) as Hst1
    by (unfold exec; by rewrite getCurrentPosition_allowed).
  assert (deferreds (exec (getCurrentPosition (Returns tt)) st)
          !! length (deferreds st) = Some Pending) as Hpend
    by (rewrite Hst1; cbn; apply lookup_snoc).
  split; [|split].
  - unfold outcome. rewrite Hst1, getCurrentPosition_allowed by done. by cbn.
  - destruct (success_effect false (length (deferreds st)) pos
                (exec (getCurrentPosition (Returns tt)) st))
      as (Hp & _ & _ & _ & _ & Hw & Hr).
    rewrite position_outcome, Hp, Hw, Hr, Hst1. split; [|done].
    rewrite <- Hst1, (success_exec false). apply settle_pending.
    by rewrite _setposition_deferreds.
  - destruct (fail_effect false (length (deferreds st)) e
                (exec (getCurrentPosition (Returns tt)) st))
      as (Hp & _ & Hw & Hr).
    rewrite Hp, Hw, Hr, Hst1. split; [|done].
    rewrite <- Hst1, (fail_exec false). apply settle_pending.
    by rewrite _onerror_deferreds.
Qed.

Lemma one_shot_round_trip_witness :
  priv_allowed watching = true ∧
  deferreds (exec (getCurrentPosition_success 1 (Heap 1))
               (exec (getCurrentPosition (Returns tt)) watching)) !! 1
  = Some (Resolved (VObj (Heap 1))) ∧
  priv_watchID (exec (getCurrentPosition_success 1 (Heap 1))
                  (exec (getCurrentPosition (Returns tt)) watching)) = Some 7.
Proof.
  split; [reflexivity|].
  destruct (one_shot_round_trip (Heap 1) (Heap 3) watching eq_refl)
    as (_ & (Hd & _ & Hw & _) & _).
  split; [exact Hd | exact Hw].
Defined.

(** X16. A watch end to end.  While [allowed] is true and no handle is
    stored, a [watchPosition()] the service accepts stores the returned
    handle and returns a fresh pending promise.  The first sample resolves
    that promise; a later sample leaves the promise resolved with the first
    one, while it is cached and notified like any new sample.  Neither a
    sample nor a failure ends the watch: the handle stays stored until it
    is stopped. *)
Theorem watch_round_trip (id : nat) (pos pos' e : ref) (st : state) :
  priv_allowed st = true →
  priv_watchID st = None →
  let d := length (deferreds st) in
  let st1 := exec (watchPosition (Returns id)) st in
  let st2 := exec (watchPosition_success d pos) st1 in
  let st3 := exec (watchPosition_success d pos') st2 in
  (outcome (watchPosition (Returns id)) st = Normal d ∧
   outcome isWatching st1 = Normal true ∧
   priv_watchID st1 = Some id ∧
   deferreds st1 = deferreds st ++ [Pending] ∧
   events st1 = events st) ∧
  (deferreds st2 !! d = Some (Resolved (VObj pos)) ∧
   priv_watchID st2 = Some id) ∧
  (deferreds st3 !! d = Some (Resolved (VObj pos)) ∧
   priv_position st3 = Some pos' ∧
   priv_watchID st3 = Some id ∧
   (pos' ≠ pos → events st3 = events st2 ++ notifications st pos')) ∧
  priv_watchID (exec (watchPosition_fail d e) st1) = Some id.
Proof.
  intros Ha Hw. cbn zeta.
  assert (exec (watchPosition (Returns id)) st =
          set_priv_watchID (Some id)
            (set_registered (registered st ++ [id])
               (set_provider_log
                  (provider_log st ++
                   [Call_watchPosition (length (deferreds st)) (priv_options st)])
                  (set_deferreds (deferreds st ++ [Pending]) st)))) as Hst1
    by (unfold exec; by rewrite watchPosition_registers).
  set (st1 := exec (watchPosition (Returns id)) st) in *.
  set (d := length (deferreds st)) in *.
  assert (deferreds st1 !! d = Some Pending) as Hpend
    by (rewrite Hst1; cbn; apply lookup_snoc).
  destruct (success_effect true d pos st1) as (Hp2 & Hev2 & Hh2 & Hv2 & _ & Hw2 & _).
  set (st2 := exec (watchPosition_success d pos) st1) in *.
  assert (deferreds st2 !! d = Some (Resolved (VObj pos))) as Hres.
  { unfold st2. rewrite (success_exec true). apply settle_pending.
    by rewrite _setposition_deferreds. }
  destruct (success_effect true d pos' st2) as (Hp3 & Hev3 & _ & _ & _ & Hw3 & _).
  destruct (fail_effect true d e st1) as (_ & _ & Hwf & _).
  assert (priv_watchID st1 = Some id) as Hw1 by (by rewrite Hst1).
  split; [|split; [|split]].
  - split; [|split; [|split; [done|split]]].
    + unfold outcome. by rewrite watchPosition_registers.
    + unfold outcome, isWatching. js_unfold. cbn. by rewrite Hw1.
    + by rewrite Hst1.
    + by rewrite Hst1.
  - split; [done|]. by rewrite Hw2.
  - split; [|split; [done|split]].
    + rewrite (success_exec true). apply settle_stable; [|done].
      by rewrite _setposition_deferreds.
    + by rewrite Hw3, Hw2.
    + intros Hne. rewrite Hev3, Hp2, bool_decide_eq_false_2 by congruence.
      f_equal. rewrite (notifications_frame st1 st2) by done.
      apply notifications_frame; by rewrite Hst1.
  - by rewrite Hwf.
Qed.

Lemma watch_round_trip_witness :
  priv_allowed permitted = true ∧ priv_watchID permitted = None ∧
  deferreds
    (exec (watchPosition_success 0 (Heap 2))
       (exec (watchPosition_success 0 (Heap 1))
          (exec (watchPosition (Returns 7)) permitted))) !! 0
  = Some (Resolved (VObj (Heap 1))) ∧
  priv_position
    (exec (watchPosition_success 0 (Heap 2))
       (exec (watchPosition_success 0 (Heap 1))
          (exec (watchPosition (Returns 7)) permitted))) = Some (Heap 2).
Proof.
  split; [reflexivity|]. split; [reflexivity|].
  destruct (watch_round_trip 7 (Heap 1) (Heap 2) (Heap 3) permitted
              eq_refl eq_refl) as (_ & _ & (Hd & Hp & _) & _).
  split; [exact Hd | exact Hp].
Defined.

(** ** Notifications and getters agree *)

(** X17. When a callback delivers a new sample, the payload of the
    ["coords"] notification is what the [coords] getter returns afterwards,
    and on a legacy host the payload of the ["address"] notification is
    what the [address] getter returns afterwards; ["coords"] is emitted
    first.  The namespace copy of the address is written on a legacy host
    only, and no getter reads it. *)
Theorem notifications_match_getters (watch : bool) (d : nat) (pos : ref) (st : state) :
  let success := if watch then watchPosition_success else getCurrentPosition_success in
  let st' := exec (success d pos) st in
  priv_position st ≠ Some pos →
  ∃ c a,
    outcome coords st' = Normal c ∧
    outcome address st' = Normal a ∧
    events st' =
      events st ++
      {| ev_type := "coords"; ev_args := [c] |} ::
      (if GEO_API_V1 st then [{| ev_type := "address"; ev_args := [a] |}]
       else []) ∧
    priv_address st' =
      (if GEO_API_V1 st then prop st pos "address" else priv_address st).
Proof.
  cbn zeta. intros Hp.
  destruct (success_effect watch d pos st) as (Hp' & Hev & Hh & _).
  rewrite bool_decide_eq_false_2 in Hev by done.
  exists (prop st pos "coords"), (address_of st pos).
  split; [|split; [|split]].
  - unfold outcome. rewrite coords_run, Hp'. cbn. f_equal. by apply prop_frame.
  - rewrite address_outcome, Hp'. f_equal. unfold address_of.
    by rewrite !(prop_frame st _ pos "address" Hh).
  - done.
  - unfold exec. rewrite success_run.
    destruct (settle_run d (Resolved (VObj pos)) (exec (_setposition pos) st))
      as [l ->].
    unfold exec. rewrite (_setposition_new _ _ Hp).
    by destruct (GEO_API_V1 st).
Qed.

Lemma notifications_match_getters_witness :
  priv_position legacy_requested ≠ Some (Heap 5) ∧
  events (exec (getCurrentPosition_success 0 (Heap 5)) legacy_requested)
  = [{| ev_type := "coords"; ev_args := [VObj (Heap 0)] |};
     {| ev_type := "address"; ev_args := [VObj (Heap 6)] |}] ∧
  outcome address (exec (getCurrentPosition_success 0 (Heap 5)) legacy_requested)
  = Normal (VObj (Heap 6)).
Proof.
  assert (priv_position legacy_requested ≠ Some (Heap 5)) as Hp by discriminate.
  split; [exact Hp|].
  destruct (notifications_match_getters false 0 (Heap 5) legacy_requested Hp)
    as (c & a & Hc & Ha & Hev & _).
  split; [reflexivity|].
  rewrite Ha. f_equal.
  assert (events (exec (getCurrentPosition_success 0 (Heap 5)) legacy_requested)
          = [{| ev_type := "coords"; ev_args := [VObj (Heap 0)] |};
             {| ev_type := "address"; ev_args := [VObj (Heap 6)] |}]) as Hconcrete
    by reflexivity.
  rewrite Hconcrete in Hev. cbn in Hev. congruence.
Defined.
